(** * libdatachannel: queue, stored callbacks, C API adapter, WebSocket

    A shallow embedding of the parts of libdatachannel that the
    specification's claims talk about:

    - [Queue]      : [src/impl/queue.hpp], the bounded blocking queue;
    - [StoredCallback] : [include/rtc/utils.hpp], [synchronized_callback]
                     and [synchronized_stored_callback];
    - [Sctp]       : [src/impl/sctptransport.hpp], the [PayloadId] enum;
    - [WebSocket]  : [src/impl/websocket.cpp], [WebSocket::outgoing];
    - [CApi]       : [src/capi.cpp], the flat C adapter.

    Conventions.  [size_t] is a [Z] reduced modulo [2^64], [int] a [Z]
    reduced to the signed 32-bit range.  A null pointer or an empty
    [std::function] is [None].  A call that blocks on a condition variable
    is a partial step: [None] means that the predicate of the wait is false
    in the current state, so the calling thread stays inside [wait] until
    another thread changes the state. *)

From Stdlib Require Import ZArith Lia.
From stdpp Require Import base option list gmap strings.

Local Open Scope Z_scope.

(** ** Machine integers *)

Module Int.

Definition size_t_modulus : Z := 2 ^ 64.

(** Arithmetic on [size_t] wraps around. *)
Definition wrap (z : Z) : Z := z mod size_t_modulus.

(** Conversion to [int], as in [int(s.size() + 1)]. *)
Definition to_int (z : Z) : Z := (z + 2 ^ 31) mod 2 ^ 32 - 2 ^ 31.

End Int.

(** ** [src/impl/queue.hpp] *)

Module Queue.

Section queue.

Context {T : Type}.

(** The data members of [Queue<T>]; the mutex and the two condition
    variables are represented by the atomicity of the operations
    below and by the partiality of the blocking ones. *)
Record t : Type := mk {
  mLimit : Z;
  mAmount : Z;
  mQueue : list T;
  mAmountFunction : T -> Z;
  mStopping : bool
}.

(** [Queue(size_t limit = 0, amount_function func = nullptr)] *)
Definition Queue (limit : Z) (func : option (T -> Z)) : t :=
  {| mLimit := limit;
     mAmount := 0;
     mQueue := [];
     mAmountFunction := default (fun _ => 1) func;
     mStopping := false |}.

(** [mQueue.size()], a [size_t]. *)
Definition size (q : t) : Z := Z.of_nat (length (mQueue q)).

Definition amount (q : t) : Z := mAmount q.

Definition empty (q : t) : bool :=
  match mQueue q with [] => true | _ :: _ => false end.

Definition full (q : t) : bool := mLimit q <=? size q.

Definition running (q : t) : bool := negb (empty q) || negb (mStopping q).

(** [stop()]: sets the flag; the two [notify_all] calls wake the
    waiters, which then re-evaluate their predicates. *)
Definition stop (q : t) : t :=
  {| mLimit := mLimit q;
     mAmount := mAmount q;
     mQueue := mQueue q;
     mAmountFunction := mAmountFunction q;
     mStopping := true |}.

Definition pushImpl (q : t) (element : T) : t :=
  if mStopping q then q
  else
    {| mLimit := mLimit q;
       mAmount := Int.wrap (mAmount q + mAmountFunction q element);
       mQueue := mQueue q ++ [element];
       mAmountFunction := mAmountFunction q;
       mStopping := mStopping q |}.

Definition popImpl (q : t) : option T * t :=
  match mQueue q with
  | [] => (None, q)
  | front :: rest =>
      (Some front,
       {| mLimit := mLimit q;
          mAmount := Int.wrap (mAmount q - mAmountFunction q front);
          mQueue := rest;
          mAmountFunction := mAmountFunction q;
          mStopping := mStopping q |})
  end.

(** The predicate [push] waits for:
    [!mLimit || mQueue.size() < mLimit || mStopping]. *)
Definition push_ready (q : t) : bool :=
  (mLimit q =? 0) || (size q <? mLimit q) || mStopping q.

(** The predicate [pop] and [wait] wait for:
    [!mQueue.empty() || mStopping]. *)
Definition pop_ready (q : t) : bool := negb (empty q) || mStopping q.

(** [push(element)]; [None] while the caller is blocked. *)
Definition push (q : t) (element : T) : option t :=
  if push_ready q then Some (pushImpl q element) else None.

(** [pop()]; [None] while the caller is blocked. *)
Definition pop (q : t) : option (option T * t) :=
  if pop_ready q then Some (popImpl q) else None.

Definition tryPop (q : t) : option T * t := popImpl q.

Definition peek (q : t) : option T := hd_error (mQueue q).

(** [exchange(element)]: swaps the front with [element]; [mAmount] is
    not touched. *)
Definition exchange (q : t) (element : T) : option T * t :=
  match mQueue q with
  | [] => (None, q)
  | front :: rest =>
      (Some front,
       {| mLimit := mLimit q;
          mAmount := mAmount q;
          mQueue := element :: rest;
          mAmountFunction := mAmountFunction q;
          mStopping := mStopping q |})
  end.

(** [wait(none)]: returns [true] once the predicate holds.  With a
    duration, [wait_for] returns the value of the predicate when the
    time is over; [timed_out] says whether that happened before the
    predicate became true. *)
Definition wait (q : t) (timed_out : bool) : option bool :=
  if pop_ready q then Some true
  else if timed_out then Some false else None.

(** *** Sequences of operations *)

Inductive op : Type :=
| Push (element : T)
| Pop
| TryPop
| Peek
| Exchange (element : T)
| Stop.

(** One call: [None] when it blocks, otherwise what it returns (the
    [void] operations return [None]) and the state it leaves. *)
Definition step (q : t) (o : op) : option (option T * t) :=
  match o with
  | Push x => q' ← push q x; Some (None, q')
  | Pop => pop q
  | TryPop => Some (tryPop q)
  | Peek => Some (peek q, q)
  | Exchange x => Some (exchange q x)
  | Stop => Some (None, stop q)
  end.

(** A sequential history in which no call blocks. *)
Fixpoint run (q : t) (ops : list op) : option (list (option T) * t) :=
  match ops with
  | [] => Some ([], q)
  | o :: ops' =>
      '(r, q') ← step q o;
      '(rs, q'') ← run q' ops';
      Some (r :: rs, q'')
  end.

(** The sum of [amountFn(x)] over the elements of a queue. *)
Definition total (f : T -> Z) (l : list T) : Z :=
  foldr (fun x acc => f x + acc) 0 l.

(** The accounting invariant: [amount()] is the sum of the amounts of
    the elements, as a [size_t]. *)
Definition amount_inv (q : t) : Prop :=
  amount q = Int.wrap (total (mAmountFunction q) (mQueue q)).

(** The states a queue built by the constructor can be in. *)
Inductive reachable (limit : Z) (func : option (T -> Z)) : t -> Prop :=
| reachable_init : reachable limit func (Queue limit func)
| reachable_step q o r q' :
    reachable limit func q -> step q o = Some (r, q') ->
    reachable limit func q'.

Definition is_pop (o : op) : bool :=
  match o with Pop | TryPop => true | _ => false end.

Definition is_push_or_pop (o : op) : bool :=
  match o with Push _ | Pop | TryPop => true | _ => false end.

Definition is_exchange (o : op) : bool :=
  match o with Exchange _ => true | _ => false end.

(** What the calls of a history return when they are served from the
    fixed contents [l], oldest first: a pop takes the oldest element left,
    or nothing when none is left; any other call returns nothing. *)
Fixpoint fifo_results (ops : list op) (l : list T) : list (option T) :=
  match ops with
  | [] => []
  | o :: ops' =>
      if is_pop o then head l :: fifo_results ops' (tail l)
      else None :: fifo_results ops' l
  end.

(** The number of [pop] and [tryPop] calls of a history. *)
Definition count_pops (ops : list op) : nat := length (filter is_pop ops).

End queue.

Arguments t : clear implicits.
Arguments op : clear implicits.

End Queue.

(** ** [include/rtc/utils.hpp]: callbacks with replay of the last missed call *)

Module StoredCallback.

Section callback.

(** [F] stands for the callables a [std::function<void(Args...)>] can hold
    and [Args] for the tuple [std::tuple<Args...>].  A callable is opaque:
    running it is recorded as an [invocation] and it does not reach back
    into the slot it is stored in. *)
Context {F Args : Type}.

Record t : Type := mk {
  callback : option F;
  stored : option Args
}.

Definition invocation : Type := (F * Args)%type.

(** A freshly constructed object: no callable, nothing stored. *)
Definition init : t := {| callback := None; stored := None |}.

(** [synchronized_callback::set] *)
Definition base_set (s : t) (func : option F) : t :=
  {| callback := func; stored := stored s |}.

(** [synchronized_callback::call] *)
Definition base_call (s : t) (args : Args) : bool * list invocation :=
  match callback s with
  | None => (false, [])
  | Some f => (true, [(f, args)])
  end.

(** [synchronized_stored_callback::set], reached through [operator=]. *)
Definition set (s : t) (func : option F) : t * list invocation :=
  let s1 := base_set s func in
  match func, stored s1 with
  | Some f, Some args =>
      ({| callback := callback s1; stored := None |}, [(f, args)])
  | _, _ => (s1, [])
  end.

(** [synchronized_stored_callback::call], reached through [operator()]. *)
Definition call (s : t) (args : Args) : bool * t * list invocation :=
  let '(done, trace) := base_call s args in
  if done then (true, s, trace)
  else (true, {| callback := callback s; stored := Some args |}, trace).

(** A run of calls, one after the other. *)
Fixpoint calls (s : t) (l : list Args) : t * list invocation :=
  match l with
  | [] => (s, [])
  | args :: l' =>
      let '(_, s1, tr1) := call s args in
      let '(s2, tr2) := calls s1 l' in
      (s2, tr1 ++ tr2)
  end.

(** *** Histories of a stored callback *)

(** The two things its users do with it: assign a callable (or null) and
    call it. *)
Inductive op : Type :=
| Assign (func : option F)
| Call (args : Args).

Definition step (s : t) (o : op) : t * list invocation :=
  match o with
  | Assign func => set s func
  | Call args => let '(_, s', trace) := call s args in (s', trace)
  end.

Fixpoint run (s : t) (ops : list op) : t * list invocation :=
  match ops with
  | [] => (s, [])
  | o :: ops' =>
      let '(s1, tr1) := step s o in
      let '(s2, tr2) := run s1 ops' in
      (s2, tr1 ++ tr2)
  end.



End callback.

Arguments t : clear implicits.
Arguments op : clear implicits.

End StoredCallback.

(** ** [src/impl/sctptransport.hpp]: payload protocol identifiers *)

Module SctpTransport.

(** [enum PayloadId : uint32_t] *)
Inductive PayloadId : Type :=
| PPID_CONTROL
| PPID_STRING
| PPID_BINARY_PARTIAL
| PPID_BINARY
| PPID_STRING_PARTIAL
| PPID_STRING_EMPTY
| PPID_BINARY_EMPTY.

(** The enumerator values. *)
Definition value (p : PayloadId) : Z :=
  match p with
  | PPID_CONTROL => 50
  | PPID_STRING => 51
  | PPID_BINARY_PARTIAL => 52
  | PPID_BINARY => 53
  | PPID_STRING_PARTIAL => 54
  | PPID_STRING_EMPTY => 56
  | PPID_BINARY_EMPTY => 57
  end.

Definition enumerators : list PayloadId :=
  [PPID_CONTROL; PPID_STRING; PPID_BINARY_PARTIAL; PPID_BINARY;
   PPID_STRING_PARTIAL; PPID_STRING_EMPTY; PPID_BINARY_EMPTY].

(** The enumerator with a given value, if there is one. *)
Definition of_value (z : Z) : option PayloadId :=
  List.find (fun p => value p =? z) enumerators.

End SctpTransport.

(** ** [src/impl/websocket.cpp]: the outgoing path *)

Module WebSocket.

Inductive State : Type := Connecting | Open | Closing | Closed.

Inductive exn : Type := runtime_error (what : string).

Section websocket.

(** [DEFAULT_MAX_MESSAGE_SIZE] is declared in [impl/internals.hpp]; the
    messages and the WebSocket transport below come from [message.hpp] and
    [wstransport.cpp].  [size] is [message->size()] and [send_result] is
    what [WsTransport::send] answers for a message. *)
Variable DEFAULT_MAX_MESSAGE_SIZE : Z.
Variable Message : Type.
Variable size : Message -> Z.
Variable send_result : Message -> bool.

(** The members [outgoing] reads: the atomic [state] and whether
    [mWsTransport] is set. *)
Record t : Type := mk {
  state : State;
  mWsTransport : bool
}.

Definition isOpen (ws : t) : bool :=
  match state ws with Open => true | _ => false end.

Definition isClosed (ws : t) : bool :=
  match state ws with Closed => true | _ => false end.

Definition maxMessageSize (ws : t) : Z := DEFAULT_MAX_MESSAGE_SIZE.

(** [outgoing(message)]: the exception thrown or the value returned,
    together with the messages handed to [mWsTransport->send]. *)
Definition outgoing (ws : t) (message : Message)
  : (exn + bool) * list Message :=
  if negb (isOpen ws) || negb (mWsTransport ws) then
    (inl (runtime_error "WebSocket is not open"), [])
  else if maxMessageSize ws <? size message then
    (inl (runtime_error "Message size exceeds limit"), [])
  else
    (inr (send_result message), [message]).

End websocket.

(** *** Closing, and the receive queue *)

(** [Message::Type], from [message.hpp]. *)
Inductive MessageType : Type := Binary | String | Control | Reset.

(** What the functions below ask of their surroundings: the callbacks of
    [Channel] ([triggerClosed], [triggerAvailable], [resetCallbacks]),
    [close()] on the WebSocket transport, and the task given to the thread
    pool that stops the transports taken out of the three members. *)
Inductive event : Type :=
| WsTransportClose
| TriggerClosed
| ResetCallbacks
| TriggerAvailable (count : Z)
| StopTransports (ws tls tcp : bool).

Section lifecycle.

(** A [Message] stands for a [message_ptr] and is known by its type;
    [impl/message.hpp] is not part of the sources at hand, and what
    [to_variant] does with the message pointed to is left out. *)
Variable Message : Type.
Variable type : Message -> MessageType.

(** The members of a WebSocket the functions below use. *)
Record socket : Type := mkSocket {
  core : t;
  mTlsTransport : bool;
  mTcpTransport : bool;
  mRecvQueue : Queue.t Message
}.

Definition set_state (newState : State) (w : socket) : socket :=
  {| core := {| state := newState; mWsTransport := mWsTransport (core w) |};
     mTlsTransport := mTlsTransport w;
     mTcpTransport := mTcpTransport w;
     mRecvQueue := mRecvQueue w |}.

Definition state_eqb (a b : State) : bool :=
  match a, b with
  | Connecting, Connecting | Open, Open
  | Closing, Closing | Closed, Closed => true
  | _, _ => false
  end.

(** [changeState(newState)]: [state.exchange(newState) != newState]. *)
Definition changeState (newState : State) (w : socket) : bool * socket :=
  (negb (state_eqb (state (core w)) newState), set_state newState w).

(** [close()] *)
Definition close (w : socket) : socket * list event :=
  match state (core w) with
  | Connecting | Open =>
      let w1 := (changeState Closing w).2 in
      if mWsTransport (core w1) then (w1, [WsTransportClose])
      else ((changeState Closed w1).2, [])
  | _ => (w, [])
  end.

(** [closeTransports()] *)
Definition closeTransports (w : socket) : socket * list event :=
  let '(w1, ev1) :=
    if negb (state_eqb (state (core w)) Closed)
    then ((changeState Closed w).2, [TriggerClosed])
    else (w, []) in
  ({| core := {| state := state (core w1); mWsTransport := false |};
      mTlsTransport := false;
      mTcpTransport := false;
      mRecvQueue := mRecvQueue w1 |},
   ev1 ++ [ResetCallbacks;
           StopTransports (mWsTransport (core w1)) (mTlsTransport w1)
             (mTcpTransport w1)]).

(** [remoteClose()] *)
Definition remoteClose (w : socket) : socket * list event :=
  if negb (state_eqb (state (core w)) Closed) then
    let '(w1, ev1) := close w in
    let '(w2, ev2) := closeTransports w1 in
    (w2, ev1 ++ ev2)
  else (w, []).

Definition set_mRecvQueue (q : Queue.t Message) (w : socket) : socket :=
  {| core := core w;
     mTlsTransport := mTlsTransport w;
     mTcpTransport := mTcpTransport w;
     mRecvQueue := q |}.

(** [incoming(message)]; the message is [None] for a null pointer, and the
    result is [None] while [mRecvQueue.push] blocks. *)
Definition incoming (message : option Message) (w : socket)
  : option (socket * list event) :=
  match message with
  | None => Some (remoteClose w)
  | Some m =>
      match type m with
      | String | Binary =>
          q ← Queue.push (mRecvQueue w) m;
          Some (set_mRecvQueue q w, [TriggerAvailable (Queue.size q)])
      | _ => Some (w, [])
      end
  end.

Definition is_control (m : Message) : bool :=
  match type m with Control => true | _ => false end.

(** The loop of [receive()]; each turn takes an element off the queue, so
    one turn more than the queue has elements is always enough. *)
Fixpoint receive_loop (turns : nat) (q : Queue.t Message)
  : option Message * Queue.t Message :=
  match turns with
  | O => (None, q)
  | S turns' =>
      match Queue.tryPop q with
      | (Some message, q') =>
          if negb (is_control message) then (Some message, q')
          else receive_loop turns' q'
      | (None, q') => (None, q')
      end
  end.

(** [receive()]; the message found is returned as it is, where the source
    converts it with [to_variant]. *)
Definition receive (w : socket) : option Message * socket :=
  let '(r, q) :=
    receive_loop (S (length (Queue.mQueue (mRecvQueue w)))) (mRecvQueue w) in
  (r, set_mRecvQueue q w).

(** The loop of [peek()]. *)
Fixpoint peek_loop (turns : nat) (q : Queue.t Message)
  : option Message * Queue.t Message :=
  match turns with
  | O => (None, q)
  | S turns' =>
      match Queue.peek q with
      | Some message =>
          if negb (is_control message) then (Some message, q)
          else peek_loop turns' (Queue.tryPop q).2
      | None => (None, q)
      end
  end.

(** [peek()] *)
Definition peek (w : socket) : option Message * socket :=
  let '(r, q) :=
    peek_loop (S (length (Queue.mQueue (mRecvQueue w)))) (mRecvQueue w) in
  (r, set_mRecvQueue q w).

(** [availableAmount()] *)
Definition availableAmount (w : socket) : Z := Queue.amount (mRecvQueue w).

End lifecycle.

End WebSocket.

(** ** [src/capi.cpp]: the flat C adapter *)

Module CApi.

(** Modelled from the spec: the numeric return codes of [rtc.h], which is
    not part of the sources at hand ([SUCCESS=0], [INVALID=-1],
    [FAILURE=-2], [NOT_AVAIL=-3], [TOO_SMALL=-4]). *)
Definition RTC_ERR_SUCCESS : Z := 0.
Definition RTC_ERR_INVALID : Z := -1.
Definition RTC_ERR_FAILURE : Z := -2.
Definition RTC_ERR_NOT_AVAIL : Z := -3.
Definition RTC_ERR_TOO_SMALL : Z := -4.

(** The exceptions [wrap] tells apart. *)
Inductive exn : Type :=
| invalid_argument (what : string)
| exception (what : string).

(** [wrap(func)]: the value of the body or the code of the exception. *)
Definition wrap (outcome : exn + Z) : Z :=
  match outcome with
  | inr v => v
  | inl (invalid_argument _) => RTC_ERR_INVALID
  | inl (exception _) => RTC_ERR_FAILURE
  end.

(** *** Copying a value into the caller's buffer *)

(** [binary] is [std::vector<byte>].  A [char *buffer] is [None] when
    null, and otherwise the bytes found from the address on; the caller
    promises that there are at least [size] of them. *)
Definition binary : Type := list Byte.byte.
Definition buffer : Type := option (list Byte.byte).

(** [s.size()] and [b.size()] *)
Definition string_size (s : string) : Z := Z.of_nat (String.length s).
Definition binary_size (b : binary) : Z := Z.of_nat (length b).

(** [std::copy] of [data] to the start of the memory [mem]. *)
Definition overwrite (data mem : list Byte.byte) : list Byte.byte :=
  data ++ drop (length data) mem.

(** [int copyAndReturn(string s, char *buffer, int size)] *)
Definition copyAndReturn_string (s : string) (buf : buffer) (size : Z)
  : Z * buffer :=
  match buf with
  | None => (Int.to_int (string_size s + 1), None)
  | Some mem =>
      if size <? Int.to_int (string_size s + 1) then
        (RTC_ERR_TOO_SMALL, Some mem)
      else
        (Int.to_int (string_size s + 1),
         Some (overwrite (String.list_byte_of_string s ++ [Byte.x00]) mem))
  end.

(** [int copyAndReturn(binary b, char *buffer, int size)] *)
Definition copyAndReturn_binary (b : binary) (buf : buffer) (size : Z)
  : Z * buffer :=
  match buf with
  | None => (Int.to_int (binary_size b), None)
  | Some mem =>
      if size <? Int.to_int (binary_size b) then
        (RTC_ERR_TOO_SMALL, Some mem)
      else
        (Int.to_int (binary_size b), Some (overwrite b mem))
  end.

(** *** The objects behind the handles *)

(** A C function pointer given as a callback, and the closure
    [[id, cb](...) { ... }] built around it by the setters. *)
Inductive FnPtr : Type := fn (address : Z).

Record Closure : Type := mkClosure {
  captured_id : Z;
  captured_cb : FnPtr
}.

(** [message_variant] is [variant<binary, string>]. *)
Inductive message_variant : Type :=
| msg_binary (b : binary)
| msg_string (s : string).

(** Modelled from the spec: the [Channel] interface shared by data
    channels, tracks and WebSockets ([channel.cpp] is not part of the
    sources at hand).  [pending] holds the received messages that [peek]
    and [receive] see, oldest first; [messageCallback] is the slot set by
    [onMessage]. *)
Record Channel : Type := mkChannel {
  pending : list message_variant;
  messageCallback : option Closure
}.

Definition peek (c : Channel) : option message_variant := head (pending c).

Definition receive (c : Channel) : Channel :=
  {| pending := tail (pending c); messageCallback := messageCallback c |}.

Definition onMessage (cb : option Closure) (c : Channel) : Channel :=
  {| pending := pending c; messageCallback := cb |}.

(** Modelled from the spec: an rtpmap entry of a media section, written
    [format/clockRate] in SDP (as in [VP9/90000]). *)
Record RtpMap : Type := mkRtpMap {
  payloadType : Z;
  format : string;
  clockRate : Z
}.

Record Ssrc : Type := mkSsrc {
  ssrc : Z;
  ssrc_name : option string;
  ssrc_msid : option string;
  ssrc_trackId : option string
}.

(** Modelled from the spec: [Description::Media], the product of
    [description.cpp] (not part of the sources at hand): the kind of the
    section, its mid and direction, the rtpmap of each payload type and
    the SSRC records. *)
Record Media : Type := mkMedia {
  media_type : string;
  media_mid : string;
  media_direction : Z;
  rtpMaps : gmap Z RtpMap;
  ssrcs : list Ssrc
}.

Definition Video (mid : string) (direction : Z) : Media :=
  {| media_type := "video"; media_mid := mid; media_direction := direction;
     rtpMaps := ∅; ssrcs := [] |}.

Definition Audio (mid : string) (direction : Z) : Media :=
  {| media_type := "audio"; media_mid := mid; media_direction := direction;
     rtpMaps := ∅; ssrcs := [] |}.

Definition addRtpMap (m : RtpMap) (desc : Media) : Media :=
  {| media_type := media_type desc; media_mid := media_mid desc;
     media_direction := media_direction desc;
     rtpMaps := <[payloadType m := m]> (rtpMaps desc);
     ssrcs := ssrcs desc |}.

(** Modelled from the spec: the codec registrations of
    [Description::Video] and [Description::Audio]; each adds the rtpmap
    of its codec under the payload type. *)
Definition addH264Codec (pt : Z) : Media -> Media :=
  addRtpMap {| payloadType := pt; format := "H264"; clockRate := 90000 |}.
Definition addVP8Codec (pt : Z) : Media -> Media :=
  addRtpMap {| payloadType := pt; format := "VP8"; clockRate := 90000 |}.
Definition addVP9Codec (pt : Z) : Media -> Media :=
  addRtpMap {| payloadType := pt; format := "VP9"; clockRate := 90000 |}.
Definition addOpusCodec (pt : Z) : Media -> Media :=
  addRtpMap {| payloadType := pt; format := "opus"; clockRate := 48000 |}.
Definition addPCMUCodec (pt : Z) : Media -> Media :=
  addRtpMap {| payloadType := pt; format := "PCMU"; clockRate := 8000 |}.
Definition addPCMACodec (pt : Z) : Media -> Media :=
  addRtpMap {| payloadType := pt; format := "PCMA"; clockRate := 8000 |}.

Definition addSSRC (s : Z) (name msid trackId : option string)
  (desc : Media) : Media :=
  {| media_type := media_type desc; media_mid := media_mid desc;
     media_direction := media_direction desc;
     rtpMaps := rtpMaps desc;
     ssrcs := ssrcs desc ++
       [{| ssrc := s; ssrc_name := name; ssrc_msid := msid;
           ssrc_trackId := trackId |}] |}.

(** Modelled from the spec: the parts of [PeerConnection]
    ([peerconnection.cpp] is not part of the sources at hand) the adapter
    reads and writes here: the serialised descriptions and one slot per
    kind of callback. *)
Record PeerConnection : Type := mkPeerConnection {
  localDescription : option string;
  remoteDescription : option string;
  stateChangeCallback : option Closure;
  gatheringStateChangeCallback : option Closure;
  signalingStateChangeCallback : option Closure
}.

(** Modelled from the spec: every setter of [PeerConnection] assigns the
    slot it is named after. *)
Definition onStateChange (cb : option Closure) (p : PeerConnection)
  : PeerConnection :=
  {| localDescription := localDescription p;
     remoteDescription := remoteDescription p;
     stateChangeCallback := cb;
     gatheringStateChangeCallback := gatheringStateChangeCallback p;
     signalingStateChangeCallback := signalingStateChangeCallback p |}.

Definition onGatheringStateChange (cb : option Closure) (p : PeerConnection)
  : PeerConnection :=
  {| localDescription := localDescription p;
     remoteDescription := remoteDescription p;
     stateChangeCallback := stateChangeCallback p;
     gatheringStateChangeCallback := cb;
     signalingStateChangeCallback := signalingStateChangeCallback p |}.

Definition onSignalingStateChange (cb : option Closure) (p : PeerConnection)
  : PeerConnection :=
  {| localDescription := localDescription p;
     remoteDescription := remoteDescription p;
     stateChangeCallback := stateChangeCallback p;
     gatheringStateChangeCallback := gatheringStateChangeCallback p;
     signalingStateChangeCallback := cb |}.

Record DataChannel : Type := mkDataChannel {
  dc_channel : Channel;
  label : string;
  protocol : string
}.

Record Track : Type := mkTrack {
  tr_channel : Channel;
  description : Media
}.

(** Modelled from the spec: [PeerConnection::addTrack] creates a track
    that carries the media description it is given. *)
Definition addTrack (desc : Media) : Track :=
  {| tr_channel := {| pending := []; messageCallback := None |};
     description := desc |}.

(** The global maps of the anonymous namespace.  An object is reached
    through its handle only, so a map holds the object itself where the
    source holds a [shared_ptr] to it. *)
Record Registry : Type := mkRegistry {
  peerConnectionMap : gmap Z PeerConnection;
  dataChannelMap : gmap Z DataChannel;
  trackMap : gmap Z Track;
  webSocketMap : gmap Z Channel;
  userPointerMap : gmap Z Z;
  lastId : Z
}.

Definition set_peerConnectionMap (m : gmap Z PeerConnection) (r : Registry)
  : Registry :=
  {| peerConnectionMap := m; dataChannelMap := dataChannelMap r;
     trackMap := trackMap r; webSocketMap := webSocketMap r;
     userPointerMap := userPointerMap r; lastId := lastId r |}.

Definition set_dataChannelMap (m : gmap Z DataChannel) (r : Registry)
  : Registry :=
  {| peerConnectionMap := peerConnectionMap r; dataChannelMap := m;
     trackMap := trackMap r; webSocketMap := webSocketMap r;
     userPointerMap := userPointerMap r; lastId := lastId r |}.

Definition set_trackMap (m : gmap Z Track) (r : Registry) : Registry :=
  {| peerConnectionMap := peerConnectionMap r;
     dataChannelMap := dataChannelMap r;
     trackMap := m; webSocketMap := webSocketMap r;
     userPointerMap := userPointerMap r; lastId := lastId r |}.

Definition set_webSocketMap (m : gmap Z Channel) (r : Registry) : Registry :=
  {| peerConnectionMap := peerConnectionMap r;
     dataChannelMap := dataChannelMap r;
     trackMap := trackMap r; webSocketMap := m;
     userPointerMap := userPointerMap r; lastId := lastId r |}.

Definition set_userPointerMap (m : gmap Z Z) (r : Registry) : Registry :=
  {| peerConnectionMap := peerConnectionMap r;
     dataChannelMap := dataChannelMap r;
     trackMap := trackMap r; webSocketMap := webSocketMap r;
     userPointerMap := m; lastId := lastId r |}.

Definition set_lastId (n : Z) (r : Registry) : Registry :=
  {| peerConnectionMap := peerConnectionMap r;
     dataChannelMap := dataChannelMap r;
     trackMap := trackMap r; webSocketMap := webSocketMap r;
     userPointerMap := userPointerMap r; lastId := n |}.

(** [std::unordered_map::emplace]: an existing key keeps its value. *)
Definition emplace {V : Type} (k : Z) (v : V) (m : gmap Z V) : gmap Z V :=
  match m !! k with
  | Some _ => m
  | None => <[k := v]> m
  end.

(** User pointers are addresses, [0] for [nullptr]. *)
Definition getUserPointer (r : Registry) (id : Z) : option Z :=
  userPointerMap r !! id.

Definition setUserPointer (i ptr : Z) (r : Registry) : Registry :=
  set_userPointerMap (<[i := ptr]> (userPointerMap r)) r.

Definition getPeerConnection (r : Registry) (id : Z) : exn + PeerConnection :=
  match peerConnectionMap r !! id with
  | Some p => inr p
  | None => inl (invalid_argument "PeerConnection ID does not exist")
  end.

Definition getDataChannel (r : Registry) (id : Z) : exn + DataChannel :=
  match dataChannelMap r !! id with
  | Some d => inr d
  | None => inl (invalid_argument "DataChannel ID does not exist")
  end.


Definition getChannel (r : Registry) (id : Z) : exn + Channel :=
  match dataChannelMap r !! id with
  | Some d => inr (dc_channel d)
  | None =>
      match trackMap r !! id with
      | Some t => inr (tr_channel t)
      | None =>
          match webSocketMap r !! id with
          | Some w => inr w
          | None =>
              inl (invalid_argument
                     "DataChannel, Track, or WebSocket ID does not exist")
          end
      end
  end.

(** A method call through the pointer [getPeerConnection] returned. *)
Definition update_peerConnection (id : Z)
  (f : PeerConnection -> PeerConnection) (r : Registry) : Registry :=
  set_peerConnectionMap (alter f id (peerConnectionMap r)) r.

(** A method call through the pointer [getChannel] returned. *)
Definition update_channel (id : Z) (f : Channel -> Channel) (r : Registry)
  : Registry :=
  match dataChannelMap r !! id with
  | Some d =>
      set_dataChannelMap
        (<[id := {| dc_channel := f (dc_channel d); label := label d;
                    protocol := protocol d |}]> (dataChannelMap r)) r
  | None =>
      match trackMap r !! id with
      | Some t =>
          set_trackMap
            (<[id := {| tr_channel := f (tr_channel t);
                        description := description t |}]> (trackMap r)) r
      | None => set_webSocketMap (alter f id (webSocketMap r)) r
      end
  end.

(** [emplaceTrack]: [++lastId] on an [int], a new entry in [trackMap] and
    a null user pointer. *)
Definition emplaceTrack (ptr : Track) (r : Registry) : Z * Registry :=
  let tr := Int.to_int (lastId r + 1) in
  (tr,
   set_userPointerMap (emplace tr 0 (userPointerMap r))
     (set_trackMap (emplace tr ptr (trackMap r)) (set_lastId tr r))).

(** *** Callback setters of a peer connection *)

Definition closure (id : Z) (cb : option FnPtr) : option Closure :=
  match cb with
  | Some f => Some {| captured_id := id; captured_cb := f |}
  | None => None
  end.

Definition rtcSetStateChangeCallback (pc : Z) (cb : option FnPtr)
  (r : Registry) : Z * Registry :=
  match getPeerConnection r pc with
  | inl e => (wrap (inl e), r)
  | inr _ =>
      let r' :=
        match cb with
        | Some f =>
            update_peerConnection pc
              (onStateChange (Some {| captured_id := pc; captured_cb := f |})) r
        | None => update_peerConnection pc (onStateChange None) r
        end in
      (wrap (inr RTC_ERR_SUCCESS), r')
  end.

Definition rtcSetGatheringStateChangeCallback (pc : Z) (cb : option FnPtr)
  (r : Registry) : Z * Registry :=
  match getPeerConnection r pc with
  | inl e => (wrap (inl e), r)
  | inr _ =>
      let r' :=
        match cb with
        | Some f =>
            update_peerConnection pc
              (onGatheringStateChange
                 (Some {| captured_id := pc; captured_cb := f |})) r
        | None => update_peerConnection pc (onGatheringStateChange None) r
        end in
      (wrap (inr RTC_ERR_SUCCESS), r')
  end.

Definition rtcSetSignalingStateChangeCallback (pc : Z) (cb : option FnPtr)
  (r : Registry) : Z * Registry :=
  match getPeerConnection r pc with
  | inl e => (wrap (inl e), r)
  | inr _ =>
      let r' :=
        match cb with
        | Some f =>
            update_peerConnection pc
              (onSignalingStateChange
                 (Some {| captured_id := pc; captured_cb := f |})) r
        | None => update_peerConnection pc (onGatheringStateChange None) r
        end in
      (wrap (inr RTC_ERR_SUCCESS), r')
  end.

(** *** Getters that copy into a buffer *)

Definition rtcGetLocalDescription (pc : Z) (buf : buffer) (size : Z)
  (r : Registry) : Z * buffer :=
  match getPeerConnection r pc with
  | inl e => (wrap (inl e), buf)
  | inr peerConnection =>
      match localDescription peerConnection with
      | Some desc =>
          let '(ret, buf') := copyAndReturn_string desc buf size in
          (wrap (inr ret), buf')
      | None => (wrap (inr RTC_ERR_NOT_AVAIL), buf)
      end
  end.

Definition rtcGetDataChannelLabel (dc : Z) (buf : buffer) (size : Z)
  (r : Registry) : Z * buffer :=
  match getDataChannel r dc with
  | inl e => (wrap (inl e), buf)
  | inr dataChannel =>
      let '(ret, buf') := copyAndReturn_string (label dataChannel) buf size in
      (wrap (inr ret), buf')
  end.

(** *** Messages *)

(** One call of the user's [rtcMessageCallbackFunc]:
    [cb(id, data, size, ptr)]. *)
Record MessageCall : Type := mkMessageCall {
  call_cb : FnPtr;
  call_id : Z;
  call_data : list Byte.byte;
  call_size : Z;
  call_ptr : Z
}.

(** The two lambdas [rtcSetMessageCallback] installs, run in the
    registry [r] with a message. *)
Definition message_closure_binary (r : Registry) (c : Closure) (b : binary)
  : list MessageCall :=
  match getUserPointer r (captured_id c) with
  | Some ptr =>
      [{| call_cb := captured_cb c; call_id := captured_id c;
          call_data := b; call_size := Int.to_int (binary_size b);
          call_ptr := ptr |}]
  | None => []
  end.

Definition message_closure_string (r : Registry) (c : Closure) (s : string)
  : list MessageCall :=
  match getUserPointer r (captured_id c) with
  | Some ptr =>
      [{| call_cb := captured_cb c; call_id := captured_id c;
          call_data := String.list_byte_of_string s ++ [Byte.x00];
          call_size := Int.to_int (- Int.to_int (string_size s + 1));
          call_ptr := ptr |}]
  | None => []
  end.

Definition rtcSetMessageCallback (id : Z) (cb : option FnPtr) (r : Registry)
  : Z * Registry :=
  match getChannel r id with
  | inl e => (wrap (inl e), r)
  | inr _ =>
      let r' :=
        match cb with
        | Some f =>
            update_channel id
              (onMessage (Some {| captured_id := id; captured_cb := f |})) r
        | None => update_channel id (onMessage None) r
        end in
      (wrap (inr RTC_ERR_SUCCESS), r')
  end.

(** Modelled from the spec: a channel that has a message callback hands
    an incoming message to it, to the lambda of the message's kind
    ([Channel::onMessage] with two callbacks is not part of the sources at
    hand). *)
Definition deliver (r : Registry) (id : Z) (m : message_variant)
  : list MessageCall :=
  match getChannel r id with
  | inl _ => []
  | inr channel =>
      match messageCallback channel, m with
      | Some c, msg_binary b => message_closure_binary r c b
      | Some c, msg_string s => message_closure_string r c s
      | None, _ => []
      end
  end.

(** [rtcReceiveMessage(id, buffer, size)].  [size] is [None] for a null
    pointer.  The result is the return value, the buffer and [*size]
    afterwards, and the registry.  In the branches that report
    [RTC_ERR_TOO_SMALL] the lambda reads the size of its argument after
    having moved it into [copyAndReturn]: a moved-from vector is empty,
    the contents of a moved-from string are given by [moved_from]. *)
Definition rtcReceiveMessage (moved_from : string -> string)
  (id : Z) (buf : buffer) (size : option Z) (r : Registry)
  : Z * buffer * option Z * Registry :=
  match getChannel r id with
  | inl e => (wrap (inl e), buf, size, r)
  | inr channel =>
      match size with
      | None =>
          (wrap (inl (invalid_argument "Unexpected null pointer for size")),
           buf, size, r)
      | Some sz =>
          let sz := Int.to_int (Z.abs sz) in
          match peek channel with
          | None => (wrap (inr RTC_ERR_NOT_AVAIL), buf, Some sz, r)
          | Some (msg_binary b) =>
              let '(ret, buf') := copyAndReturn_binary b buf sz in
              if 0 <=? ret then
                (wrap (inr RTC_ERR_SUCCESS), buf', Some ret,
                 match buf with
                 | Some _ => update_channel id receive r
                 | None => r
                 end)
              else
                (wrap (inr ret), buf',
                 Some (Int.to_int (binary_size [])), r)
          | Some (msg_string s) =>
              let '(ret, buf') := copyAndReturn_string s buf sz in
              if 0 <=? ret then
                (wrap (inr RTC_ERR_SUCCESS), buf', Some (Int.to_int (- ret)),
                 match buf with
                 | Some _ => update_channel id receive r
                 | None => r
                 end)
              else
                (wrap (inr ret), buf',
                 Some (Int.to_int
                         (- Int.to_int (string_size (moved_from s) + 1))),
                 r)
          end
      end
  end.

(** *** Tracks *)

(** Modelled from the spec: the codecs of [rtcCodec] in [rtc.h];
    [RTC_CODEC_other] stands for any other value of the [int]. *)
Inductive rtcCodec : Type :=
| RTC_CODEC_H264
| RTC_CODEC_VP8
| RTC_CODEC_VP9
| RTC_CODEC_OPUS
| RTC_CODEC_PCMU
| RTC_CODEC_PCMA
| RTC_CODEC_other (v : Z).

(** The fields of [rtcTrackInit] that [rtcAddTrackEx] reads; a [char *]
    field is [None] when null. *)
Record rtcTrackInit : Type := mkTrackInit {
  init_direction : Z;
  init_codec : rtcCodec;
  init_payloadType : Z;
  init_ssrc : Z;
  init_mid : option string;
  init_name : option string;
  init_msid : option string;
  init_trackId : option string
}.

(** The first [switch] of [rtcAddTrackEx]: the mid when none is given. *)
Definition default_mid (codec : rtcCodec) : string :=
  match codec with
  | RTC_CODEC_H264 | RTC_CODEC_VP8 | RTC_CODEC_VP9 => "video"
  | RTC_CODEC_OPUS | RTC_CODEC_PCMU | RTC_CODEC_PCMA => "audio"
  | RTC_CODEC_other _ => "video"
  end.

(** The second [switch]: the media description with its codec. *)
Definition codec_description (codec : rtcCodec) (mid : string)
  (direction pt : Z) : option Media :=
  match codec with
  | RTC_CODEC_H264 => Some (addH264Codec pt (Video mid direction))
  | RTC_CODEC_VP8 => Some (addVP8Codec pt (Video mid direction))
  | RTC_CODEC_VP9 => Some (addVP8Codec pt (Video mid direction))
  | RTC_CODEC_OPUS => Some (addOpusCodec pt (Audio mid direction))
  | RTC_CODEC_PCMU => Some (addPCMUCodec pt (Audio mid direction))
  | RTC_CODEC_PCMA => Some (addPCMACodec pt (Audio mid direction))
  | RTC_CODEC_other _ => None
  end.

(** [rtcAddTrackEx(pc, init)]; [init] is [None] for a null pointer. *)
Definition rtcAddTrackEx (pc : Z) (init : option rtcTrackInit) (r : Registry)
  : Z * Registry :=
  match getPeerConnection r pc with
  | inl e => (wrap (inl e), r)
  | inr peerConnection =>
      match init with
      | None =>
          (wrap (inl (invalid_argument
                        "Unexpected null pointer for track init")), r)
      | Some init =>
          let direction := init_direction init in
          let mid := default (default_mid (init_codec init)) (init_mid init) in
          match codec_description (init_codec init) mid direction
                  (init_payloadType init) with
          | None => (wrap (inl (invalid_argument "Unexpected codec")), r)
          | Some desc =>
              let desc :=
                addSSRC (init_ssrc init) (init_name init) (init_msid init)
                  (init_trackId init) desc in
              let '(tr, r1) := emplaceTrack (addTrack desc) r in
              let r2 :=
                match getUserPointer r1 pc with
                | Some ptr => setUserPointer tr ptr r1
                | None => r1
                end in
              (wrap (inr tr), r2)
          end
      end
  end.

(** *** Handles and user pointers *)

Definition rtcSetUserPointer (i ptr : Z) (r : Registry) : Registry :=
  setUserPointer i ptr r.

(** [getUserPointer(i).value_or(nullptr)] *)
Definition rtcGetUserPointer (i : Z) (r : Registry) : Z :=
  default 0 (getUserPointer r i).



(** [emplaceWebSocket]; the map holds the [Channel] side of a WebSocket. *)
Definition emplaceWebSocket (ptr : Channel) (r : Registry) : Z * Registry :=
  let ws := Int.to_int (lastId r + 1) in
  (ws,
   set_userPointerMap (emplace ws 0 (userPointerMap r))
     (set_webSocketMap (emplace ws ptr (webSocketMap r))
        (set_lastId ws r))).

Definition erasePeerConnection (pc : Z) (r : Registry) : exn + Registry :=
  match peerConnectionMap r !! pc with
  | None => inl (invalid_argument "Peer Connection ID does not exist")
  | Some _ =>
      inr (set_userPointerMap (delete pc (userPointerMap r))
             (set_peerConnectionMap (delete pc (peerConnectionMap r)) r))
  end.

Definition eraseDataChannel (dc : Z) (r : Registry) : exn + Registry :=
  match dataChannelMap r !! dc with
  | None => inl (invalid_argument "Data Channel ID does not exist")
  | Some _ =>
      inr (set_userPointerMap (delete dc (userPointerMap r))
             (set_dataChannelMap (delete dc (dataChannelMap r)) r))
  end.

Definition eraseWebSocket (ws : Z) (r : Registry) : exn + Registry :=
  match webSocketMap r !! ws with
  | None => inl (invalid_argument "WebSocket ID does not exist")
  | Some _ =>
      inr (set_userPointerMap (delete ws (userPointerMap r))
             (set_webSocketMap (delete ws (webSocketMap r)) r))
  end.

(** [rtcDeletePeerConnection] and [rtcDeleteDataChannel]: the object is
    closed and its handle erased.  [close()] works on the object, which
    the registry no longer holds afterwards. *)
Definition rtcDeletePeerConnection (pc : Z) (r : Registry) : Z * Registry :=
  match getPeerConnection r pc with
  | inl e => (wrap (inl e), r)
  | inr _ =>
      match erasePeerConnection pc r with
      | inl e => (wrap (inl e), r)
      | inr r' => (wrap (inr RTC_ERR_SUCCESS), r')
      end
  end.

Definition rtcDeleteDataChannel (dc : Z) (r : Registry) : Z * Registry :=
  match getDataChannel r dc with
  | inl e => (wrap (inl e), r)
  | inr _ =>
      match eraseDataChannel dc r with
      | inl e => (wrap (inl e), r)
      | inr r' => (wrap (inr RTC_ERR_SUCCESS), r')
      end
  end.

(** Every handle of an object is positive and at most [lastId]. *)
Definition handles_bounded (r : Registry) : Prop :=
  0 <= lastId r /\
  (forall id, is_Some (peerConnectionMap r !! id) -> 0 < id <= lastId r) /\
  (forall id, is_Some (dataChannelMap r !! id) -> 0 < id <= lastId r) /\
  (forall id, is_Some (trackMap r !! id) -> 0 < id <= lastId r) /\
  (forall id, is_Some (webSocketMap r !! id) -> 0 < id <= lastId r).


(** *** Sending *)

(** The [string] built from a [char] pointer: the bytes up to the first
    null byte. *)
Fixpoint c_str (mem : list Byte.byte) : list Byte.byte :=
  match mem with
  | [] => []
  | b :: mem' => if Byte.eqb b Byte.x00 then [] else b :: c_str mem'
  end.

(** [rtcSendMessage(id, data, size)].  [send] stands for
    [Channel::send], which is not part of the sources at hand: it throws
    or answers a [bool].  The result is the return value and what was
    handed to [send]. *)
Definition rtcSendMessage (send : message_variant -> exn + bool)
  (id : Z) (data : buffer) (size : Z) (r : Registry)
  : Z * list message_variant :=
  match getChannel r id with
  | inl e => (wrap (inl e), [])
  | inr _ =>
      match data, size =? 0 with
      | None, false =>
          (wrap (inl (invalid_argument "Unexpected null pointer for data")),
           [])
      | _, _ =>
          let message :=
            if 0 <=? size then
              msg_binary (take (Z.to_nat size) (default [] data))
            else
              msg_string (String.string_of_list_byte (c_str (default [] data)))
          in
          match send message with
          | inl e => (wrap (inl e), [message])
          | inr _ => (wrap (inr RTC_ERR_SUCCESS), [message])
          end
      end
  end.

(** *** Reliability of a data channel *)

(** The C side: [rtcReliability] of [rtc.h]. *)
Record rtcReliability : Type := mkRtcReliability {
  c_unordered : bool;
  c_unreliable : bool;
  c_maxPacketLifeTime : Z;
  c_maxRetransmits : Z
}.

(** The C++ side: [Reliability] of [rtc/reliability.hpp]; [rexmit] is a
    [variant<int, milliseconds>]. *)
Inductive ReliabilityType : Type := Reliable | Rexmit | Timed.

Inductive rexmit_variant : Type :=
| rexmit_int (n : Z)
| rexmit_milliseconds (count : Z).

Record Reliability : Type := mkReliability {
  rel_type : ReliabilityType;
  rel_unordered : bool;
  rel_rexmit : rexmit_variant
}.

(** A value-initialised [Reliability]. *)
Definition default_Reliability : Reliability :=
  {| rel_type := Reliable; rel_unordered := false;
     rel_rexmit := rexmit_int 0 |}.

(** The part of [rtcCreateDataChannelEx] that fills [dci.reliability] from
    [init->reliability]. *)
Definition to_Reliability (c : rtcReliability) : Reliability :=
  if c_unreliable c then
    if 0 <? c_maxPacketLifeTime c then
      {| rel_type := Timed; rel_unordered := c_unordered c;
         rel_rexmit := rexmit_milliseconds (c_maxPacketLifeTime c) |}
    else
      {| rel_type := Rexmit; rel_unordered := c_unordered c;
         rel_rexmit := rexmit_int (c_maxRetransmits c) |}
  else
    {| rel_type := Reliable; rel_unordered := c_unordered c;
       rel_rexmit := rel_rexmit default_Reliability |}.

(** The body of [rtcGetDataChannelReliability] once the channel and its
    [reliability()] are at hand: the struct is zeroed and filled;
    [boost::get] throws when [rexmit] holds the other alternative. *)
Definition of_Reliability (dcr : Reliability) : exn + rtcReliability :=
  match rel_type dcr with
  | Timed =>
      match rel_rexmit dcr with
      | rexmit_milliseconds count =>
          inr {| c_unordered := rel_unordered dcr; c_unreliable := true;
                 c_maxPacketLifeTime := Int.to_int count;
                 c_maxRetransmits := 0 |}
      | rexmit_int _ => inl (exception "boost::bad_get")
      end
  | Rexmit =>
      match rel_rexmit dcr with
      | rexmit_int n =>
          inr {| c_unordered := rel_unordered dcr; c_unreliable := true;
                 c_maxPacketLifeTime := 0; c_maxRetransmits := n |}
      | rexmit_milliseconds _ => inl (exception "boost::bad_get")
      end
  | Reliable =>
      inr {| c_unordered := rel_unordered dcr; c_unreliable := false;
             c_maxPacketLifeTime := 0; c_maxRetransmits := 0 |}
  end.

(** *** The selected candidate pair *)

(** [rtcGetSelectedCandidatePair]; [selected] stands for
    [PeerConnection::getSelectedCandidatePair] and gives the two
    candidates as strings when there is a pair. *)
Definition rtcGetSelectedCandidatePair
  (selected : PeerConnection -> option (string * string))
  (pc : Z) (local : buffer) (localSize : Z) (remote : buffer)
  (remoteSize : Z) (r : Registry) : Z * buffer * buffer :=
  match getPeerConnection r pc with
  | inl e => (wrap (inl e), local, remote)
  | inr peerConnection =>
      match selected peerConnection with
      | None => (wrap (inr RTC_ERR_NOT_AVAIL), local, remote)
      | Some (localCand, remoteCand) =>
          let '(localRet, local') :=
            copyAndReturn_string localCand local localSize in
          if localRet <? 0 then (wrap (inr localRet), local', remote)
          else
            let '(remoteRet, remote') :=
              copyAndReturn_string remoteCand remote remoteSize in
            if remoteRet <? 0 then (wrap (inr remoteRet), local', remote')
            else (wrap (inr (Z.max localRet remoteRet)), local', remote')
      end
  end.

End CApi.

(** ** A sample registry *)

(** A registry with the peer connection [1], whose signaling-state
    callback is set, and the data channel [2] with label [echo], which
    holds one string message. *)
Definition registry0 : CApi.Registry :=
  {| CApi.peerConnectionMap :=
       {[ 1 := {| CApi.localDescription := None;
                  CApi.remoteDescription := None;
                  CApi.stateChangeCallback := None;
                  CApi.gatheringStateChangeCallback := None;
                  CApi.signalingStateChangeCallback :=
                    Some {| CApi.captured_id := 1;
                            CApi.captured_cb := CApi.fn 200 |} |} ]};
     CApi.dataChannelMap :=
       {[ 2 := {| CApi.dc_channel :=
                    {| CApi.pending := [CApi.msg_string "hello"];
                       CApi.messageCallback := None |};
                  CApi.label := "echo";
                  CApi.protocol := EmptyString |} ]};
     CApi.trackMap := ∅;
     CApi.webSocketMap := ∅;
     CApi.userPointerMap := {[ 1 := 0; 2 := 4096 ]};
     CApi.lastId := 2 |}.

(** A registry with the data channel [1], which holds one binary message
    of three bytes. *)
Definition registry1 : CApi.Registry :=
  {| CApi.peerConnectionMap := ∅;
     CApi.dataChannelMap :=
       {[ 1 := {| CApi.dc_channel :=
                    {| CApi.pending :=
                         [CApi.msg_binary [Byte.x01; Byte.x02; Byte.x03]];
                       CApi.messageCallback := None |};
                  CApi.label := "data";
                  CApi.protocol := EmptyString |} ]};
     CApi.trackMap := ∅;
     CApi.webSocketMap := ∅;
     CApi.userPointerMap := {[ 1 := 0 ]};
     CApi.lastId := 1 |}.

(** A receive queue of a WebSocket whose messages are pairs of a type and
    a number: a control message, a string message, a control message. *)
Definition socket0 : WebSocket.socket (WebSocket.MessageType * Z) :=
  {| WebSocket.core := {| WebSocket.state := WebSocket.Connecting;
                          WebSocket.mWsTransport := false |};
     WebSocket.mTlsTransport := false;
     WebSocket.mTcpTransport := true;
     WebSocket.mRecvQueue :=
       {| Queue.mLimit := 0; Queue.mAmount := 3;
          Queue.mQueue := [(WebSocket.Control, 0); (WebSocket.String, 1);
                           (WebSocket.Control, 2)];
          Queue.mAmountFunction := fun _ => 1;
          Queue.mStopping := false |} |}.

(** * Properties *)

(** ** Machine integers *)

Lemma wrap_small z : 0 <= z < Int.size_t_modulus -> Int.wrap z = z.
Proof. intros H. unfold Int.wrap. now apply Z.mod_small. Qed.

Lemma wrap_add_l a b : Int.wrap (Int.wrap a + b) = Int.wrap (a + b).
Proof. unfold Int.wrap. now rewrite Zplus_mod_idemp_l. Qed.

Lemma wrap_sub_l a b : Int.wrap (Int.wrap a - b) = Int.wrap (a - b).
Proof. unfold Int.wrap. now rewrite Zminus_mod_idemp_l. Qed.

Lemma to_int_small z : - 2 ^ 31 <= z < 2 ^ 31 -> Int.to_int z = z.
Proof. intros H. unfold Int.to_int. rewrite Z.mod_small; lia. Qed.

(** ** The queue *)

Section queue_facts.

Context {T : Type}.
Implicit Types (q : Queue.t T) (x : T) (o : Queue.op T).

Lemma total_snoc (f : T -> Z) (l : list T) x :
  Queue.total f (l ++ [x]) = Queue.total f l + f x.
Proof.
  induction l as [|y l IH]; simpl; [lia|].
  fold (Queue.total f (l ++ [x])). fold (Queue.total f l). lia.
Qed.

Lemma total_const (l : list T) : Queue.total (fun _ => 1) l = Z.of_nat (length l).
Proof.
  induction l as [|y l IH]; [reflexivity|].
  cbn [Queue.total foldr length]. fold (Queue.total (fun _ : T => 1) l). lia.
Qed.

(** What a call of [push] that goes through does. *)
Lemma push_Some q x q' :
  Queue.push q x = Some q' ->
  Queue.push_ready q = true /\ q' = Queue.pushImpl q x.
Proof.
  unfold Queue.push. destruct (Queue.push_ready q); [|discriminate].
  intros [= <-]. auto.
Qed.

Lemma push_ready_spec q :
  Queue.push_ready q = true <->
  Queue.mLimit q = 0 \/ Queue.size q < Queue.mLimit q \/ Queue.mStopping q = true.
Proof.
  unfold Queue.push_ready.
  rewrite !orb_true_iff, Z.eqb_eq, Z.ltb_lt. tauto.
Qed.

Lemma pushImpl_amount_inv q x :
  Queue.amount_inv q -> Queue.amount_inv (Queue.pushImpl q x).
Proof.
  unfold Queue.amount_inv, Queue.amount, Queue.pushImpl. intros H.
  destruct (Queue.mStopping q); [exact H|].
  cbn [Queue.mAmount Queue.mQueue Queue.mAmountFunction].
  now rewrite total_snoc, H, wrap_add_l.
Qed.

Lemma popImpl_amount_inv q :
  Queue.amount_inv q -> Queue.amount_inv (Queue.popImpl q).2.
Proof.
  unfold Queue.amount_inv, Queue.amount, Queue.popImpl. intros H.
  destruct (Queue.mQueue q) as [|y l] eqn:E;
    cbn [snd Queue.mAmount Queue.mQueue Queue.mAmountFunction];
    [now rewrite E|].
  rewrite H. cbn [Queue.total foldr].
  fold (Queue.total (Queue.mAmountFunction q) l).
  rewrite wrap_sub_l. f_equal. lia.
Qed.

(** Every operation but [exchange] keeps the invariant. *)
Lemma step_amount_inv q o r q' :
  Queue.is_exchange o = false ->
  Queue.step q o = Some (r, q') ->
  Queue.amount_inv q -> Queue.amount_inv q'.
Proof.
  intros Ho Hstep Hq. destruct o as [x| | | |x|]; cbn in Hstep.
  - destruct (Queue.push q x) as [q1|] eqn:E; [|discriminate].
    cbn in Hstep. injection Hstep as _ <-.
    apply push_Some in E as [_ ->]. now apply pushImpl_amount_inv.
  - unfold Queue.pop in Hstep.
    destruct (Queue.pop_ready q); [|discriminate].
    injection Hstep as Hs. pose proof (popImpl_amount_inv q Hq) as H.
    now rewrite Hs in H.
  - injection Hstep as Hs. pose proof (popImpl_amount_inv q Hq) as H.
    unfold Queue.tryPop in Hs. now rewrite Hs in H.
  - injection Hstep as _ <-. exact Hq.
  - discriminate.
  - injection Hstep as _ <-. exact Hq.
Qed.

Lemma run_amount_inv ops : forall q rs q',
  forallb (fun o => negb (Queue.is_exchange o)) ops = true ->
  Queue.run q ops = Some (rs, q') ->
  Queue.amount_inv q -> Queue.amount_inv q'.
Proof.
  induction ops as [|o ops IH]; intros q rs q' Hops Hrun Hq.
  - injection Hrun as _ <-. exact Hq.
  - cbn in Hops. apply andb_true_iff in Hops as [Ho Hops].
    apply negb_true_iff in Ho. cbn in Hrun.
    destruct (Queue.step q o) as [[r q1]|] eqn:E; [|discriminate].
    cbn in Hrun.
    destruct (Queue.run q1 ops) as [[rs1 q2]|] eqn:E2; [|discriminate].
    cbn in Hrun. injection Hrun as _ <-.
    eapply IH; eauto. eapply step_amount_inv; eauto.
Qed.

End queue_facts.

Section queue_claims.

Context {T : Type}.
Implicit Types (q : Queue.t T) (x : T) (o : Queue.op T).

(** C1 (as amended): for a queue with a nonzero limit, [push(x)] blocks
    exactly while the queue is not stopped and holds at least [limit]
    elements; the amounts play no part.  When it returns, either the queue
    was stopped and is left as it was, or it held fewer than [limit]
    elements and [x] is now its last one. *)
Theorem push_blocks_on_element_count q x :
  Queue.mLimit q <> 0 ->
  (Queue.push q x = None <->
   Queue.mStopping q = false /\ Queue.mLimit q <= Queue.size q) /\
  (forall q', Queue.push q x = Some q' ->
     (Queue.mStopping q = true /\ q' = q) \/
     (Queue.mStopping q = false /\ Queue.size q < Queue.mLimit q /\
      Queue.mQueue q' = Queue.mQueue q ++ [x] /\
      Queue.amount q' =
        Int.wrap (Queue.amount q + Queue.mAmountFunction q x))).
Proof.
  intros Hlim. split.
  - unfold Queue.push, Queue.push_ready.
    destruct (Z.eqb_spec (Queue.mLimit q) 0) as [E|_]; [contradiction|].
    destruct (Z.ltb_spec (Queue.size q) (Queue.mLimit q)) as [Hlt|Hge];
      destruct (Queue.mStopping q); cbn; split;
      try discriminate; try (intros [? ?]; discriminate || lia); auto.
  - intros q' Hpush. apply push_Some in Hpush as [Hready ->].
    apply push_ready_spec in Hready.
    unfold Queue.pushImpl, Queue.amount.
    destruct (Queue.mStopping q) eqn:Hs; [left; auto|right].
    cbn. intuition congruence.
Qed.

(** Every operation leaves [mStopping] set once it is. *)
Lemma step_keeps_stopping q o r q' :
  Queue.mStopping q = true -> Queue.step q o = Some (r, q') ->
  Queue.mStopping q' = true.
Proof.
  intros Hs Hstep. destruct o as [x| | | |x|]; cbn in Hstep.
  - destruct (Queue.push q x) as [q1|] eqn:E; [|discriminate].
    cbn in Hstep. injection Hstep as _ <-.
    apply push_Some in E as [_ ->]. unfold Queue.pushImpl. now rewrite Hs.
  - unfold Queue.pop in Hstep. destruct (Queue.pop_ready q); [|discriminate].
    unfold Queue.popImpl in Hstep.
    destruct (Queue.mQueue q); injection Hstep as _ <-; auto.
  - unfold Queue.tryPop, Queue.popImpl in Hstep.
    destruct (Queue.mQueue q); injection Hstep as _ <-; auto.
  - injection Hstep as _ <-. auto.
  - unfold Queue.exchange in Hstep.
    destruct (Queue.mQueue q); injection Hstep as _ <-; auto.
  - injection Hstep as _ <-. reflexivity.
Qed.

Lemma push_stopped q x : Queue.mStopping q = true -> Queue.push q x = Some q.
Proof.
  intros Hs. unfold Queue.push, Queue.push_ready, Queue.pushImpl.
  rewrite Hs, !orb_true_r. reflexivity.
Qed.

Lemma pop_stopped q :
  Queue.mStopping q = true -> Queue.pop q = Some (Queue.popImpl q).
Proof.
  intros Hs. unfold Queue.pop, Queue.pop_ready. now rewrite Hs, orb_true_r.
Qed.

Lemma popImpl_head q :
  (Queue.popImpl q).1 = head (Queue.mQueue q) /\
  Queue.mQueue (Queue.popImpl q).2 = tail (Queue.mQueue q) /\
  Queue.mStopping (Queue.popImpl q).2 = Queue.mStopping q.
Proof. unfold Queue.popImpl. destruct (Queue.mQueue q) eqn:E; cbn; auto. Qed.

(** A history of pushes and pops on a stopped queue: no call blocks and
    the pops are served, oldest first, from what the queue held. *)
Lemma run_stopped ops : forall q,
  Queue.mStopping q = true ->
  forallb Queue.is_push_or_pop ops = true ->
  exists q',
    Queue.run q ops = Some (Queue.fifo_results ops (Queue.mQueue q), q') /\
    Queue.mStopping q' = true /\
    Queue.mQueue q' = drop (Queue.count_pops ops) (Queue.mQueue q).
Proof.
  induction ops as [|o ops IH]; intros q Hs Hops.
  - exists q. cbn. auto.
  - cbn in Hops. apply andb_true_iff in Hops as [Ho Hops].
    destruct o as [x| | | |x|]; try discriminate; cbn [Queue.run Queue.step].
    + rewrite (push_stopped q x Hs). cbn.
      destruct (IH q Hs Hops) as (q' & -> & Hs' & Hq'). cbn.
      exists q'. auto.
    + rewrite (pop_stopped q Hs).
      destruct (Queue.popImpl q) as [r q1] eqn:E.
      pose proof (popImpl_head q) as (Hr & Hl & Hst). rewrite E in *.
      cbn in Hr, Hl, Hst. rewrite Hs in Hst.
      destruct (IH q1 Hst Hops) as (q' & Hrun & Hs' & Hq'). cbn.
      rewrite Hrun. cbn. exists q'. rewrite Hl in *. subst r.
      split; [reflexivity|]. split; [assumption|].
      rewrite Hq'. unfold Queue.count_pops. cbn.
      destruct (Queue.mQueue q); cbn; [now rewrite drop_nil|reflexivity].
    + unfold Queue.tryPop.
      destruct (Queue.popImpl q) as [r q1] eqn:E.
      pose proof (popImpl_head q) as (Hr & Hl & Hst). rewrite E in *.
      cbn in Hr, Hl, Hst. rewrite Hs in Hst.
      destruct (IH q1 Hst Hops) as (q' & Hrun & Hs' & Hq'). cbn.
      rewrite Hrun. cbn. exists q'. rewrite Hl in *. subst r.
      split; [reflexivity|]. split; [assumption|].
      rewrite Hq'. unfold Queue.count_pops. cbn.
      destruct (Queue.mQueue q); cbn; [now rewrite drop_nil|reflexivity].
Qed.

(** C10: once [stop()] has been called, no push or pop blocks; a push
    leaves the queue exactly as it is; the pops return what the queue held
    at the stop, oldest first, and nothing once that is used up; and
    [running()] is true exactly while elements remain. *)
Theorem queue_after_stop q0 (ops : list (Queue.op T)) :
  forallb Queue.is_push_or_pop ops = true ->
  exists q,
    Queue.run (Queue.stop q0) ops =
      Some (Queue.fifo_results ops (Queue.mQueue q0), q) /\
    Queue.mQueue q = drop (Queue.count_pops ops) (Queue.mQueue q0) /\
    (forall x, Queue.push q x = Some q) /\
    Queue.pop q = Some (Queue.tryPop q) /\
    (Queue.tryPop q).1 = head (Queue.mQueue q) /\
    Queue.running q = negb (Queue.empty q).
Proof.
  intros Hops.
  destruct (run_stopped ops (Queue.stop q0) eq_refl Hops) as (q & Hrun & Hs & Hq).
  exists q. cbn in Hrun, Hq. repeat split; auto.
  - intros x. now apply push_stopped.
  - now apply pop_stopped.
  - apply popImpl_head.
  - unfold Queue.running. rewrite Hs. apply orb_false_r.
Qed.

(** With the default amount function every reachable state has
    [amount() = size()] as [size_t] values. *)
Lemma default_amount_is_size limit q :
  Queue.reachable limit None q ->
  Queue.mLimit q = limit /\
  Queue.mAmountFunction q = (fun _ => 1) /\
  Queue.amount q = Int.wrap (Queue.size q).
Proof.
  induction 1 as [|q o r q' Hreach (Hl & Hf & Ha) Hstep]; [now cbn|].
  unfold Queue.amount, Queue.size in *.
  destruct o as [x| | | |x|]; cbn in Hstep.
  - destruct (Queue.push q x) as [q1|] eqn:E; [|discriminate].
    cbn in Hstep. injection Hstep as _ <-.
    apply push_Some in E as [_ ->]. unfold Queue.pushImpl.
    destruct (Queue.mStopping q); [auto|]. cbn. repeat split; auto.
    rewrite Hf, Ha, wrap_add_l, length_app. cbn. f_equal. lia.
  - unfold Queue.pop in Hstep. destruct (Queue.pop_ready q); [|discriminate].
    unfold Queue.popImpl in Hstep.
    destruct (Queue.mQueue q) as [|y l] eqn:El; injection Hstep as _ <-;
      [rewrite El; auto|]. cbn. repeat split; auto.
    rewrite Hf, Ha, wrap_sub_l. cbn [length]. f_equal. lia.
  - unfold Queue.tryPop, Queue.popImpl in Hstep.
    destruct (Queue.mQueue q) as [|y l] eqn:El; injection Hstep as _ <-;
      [rewrite El; auto|]. cbn. repeat split; auto.
    rewrite Hf, Ha, wrap_sub_l. cbn [length]. f_equal. lia.
  - injection Hstep as _ <-. auto.
  - unfold Queue.exchange in Hstep.
    destruct (Queue.mQueue q) as [|y l] eqn:El; injection Hstep as _ <-;
      [rewrite El; auto|]. cbn. repeat split; auto.
  - injection Hstep as _ <-. auto.
Qed.

(** A bounded queue never holds more than [limit] elements. *)
Lemma size_within_limit limit func q :
  0 < limit -> Queue.reachable limit func q ->
  Queue.mLimit q = limit /\ Queue.size q <= limit.
Proof.
  intros Hpos. induction 1 as [|q o r q' Hreach (Hl & Hsz) Hstep];
    [cbn; unfold Queue.size; cbn; lia|].
  unfold Queue.size in *.
  destruct o as [x| | | |x|]; cbn in Hstep.
  - destruct (Queue.push q x) as [q1|] eqn:E; [|discriminate].
    cbn in Hstep. injection Hstep as _ <-.
    apply push_Some in E as [Hready ->].
    apply push_ready_spec in Hready. unfold Queue.pushImpl, Queue.size in *.
    destruct (Queue.mStopping q); [auto|]. cbn. split; [auto|].
    rewrite length_app. cbn. destruct Hready as [?|[?|?]]; [lia|lia|discriminate].
  - unfold Queue.pop in Hstep. destruct (Queue.pop_ready q); [|discriminate].
    unfold Queue.popImpl in Hstep.
    destruct (Queue.mQueue q) as [|y l] eqn:El; injection Hstep as _ <-;
      [rewrite El; auto|]. cbn in *. split; [auto|lia].
  - unfold Queue.tryPop, Queue.popImpl in Hstep.
    destruct (Queue.mQueue q) as [|y l] eqn:El; injection Hstep as _ <-;
      [rewrite El; auto|]. cbn in *. split; [auto|lia].
  - injection Hstep as _ <-. auto.
  - unfold Queue.exchange in Hstep.
    destruct (Queue.mQueue q) as [|y l] eqn:El; injection Hstep as _ <-;
      [rewrite El; auto|]. cbn in *. split; [auto|lia].
  - injection Hstep as _ <-. auto.
Qed.

(** With the default amount function the bound on the number of elements
    is a bound on the amount: there [push] returns only once
    [amount + 1 <= limit] or the queue is stopped. *)
Lemma push_default_amount limit q x q' :
  0 < limit < Int.size_t_modulus ->
  Queue.reachable limit None q ->
  Queue.push q x = Some q' ->
  Queue.amount q + Queue.mAmountFunction q x <= limit \/
  Queue.mStopping q = true.
Proof.
  intros Hlim Hreach Hpush.
  destruct (default_amount_is_size limit q Hreach) as (Hl & Hf & Ha).
  destruct (size_within_limit limit None q (proj1 Hlim) Hreach) as (_ & Hsz).
  apply push_Some in Hpush as [Hready _].
  apply push_ready_spec in Hready.
  rewrite Ha, Hf, wrap_small by (unfold Queue.size in *; lia).
  destruct Hready as [?|[?|?]]; [lia|left; lia|now right].
Qed.

End queue_claims.

(** C1, witness: a queue of limit 2 that holds two elements. *)
Lemma push_blocks_on_element_count_witness :
  let q := {| Queue.mLimit := 2; Queue.mAmount := 7; Queue.mQueue := [3; 4];
              Queue.mAmountFunction := fun x : Z => x;
              Queue.mStopping := false |} in
  Queue.mLimit q <> 0 /\ Queue.push q 5 = None.
Proof.
  intros q. split; [discriminate|].
  apply (proj1 (push_blocks_on_element_count q 5 ltac:(discriminate))).
  split; [reflexivity|]. vm_compute. discriminate.
Defined.

(** C1, counterexample to the claim as stated: with limit 1 and an amount
    function that gives 5, [push] goes through on the empty queue and
    enqueues the element, although the queue is not stopped and
    [amount + amountFn(x)] is above the limit. *)
Lemma push_ignores_amount :
  let q := Queue.Queue 1 (Some (fun _ : Z => 5)) in
  exists q',
    Queue.push q 0 = Some q' /\ Queue.mQueue q' = [0] /\
    Queue.mStopping q = false /\
    ~ (Queue.amount q + Queue.mAmountFunction q 0 <= Queue.mLimit q).
Proof.
  eexists. repeat split. cbn. lia.
Qed.

(** C2, the failing history: after [push(5); exchange(3)] on a queue
    whose amount function is the identity, the queue holds [3] alone and
    [amount()] is still 5; a [pop] then leaves the empty queue with
    amount 2. *)
Theorem exchange_leaves_amount_stale :
  let q0 := Queue.Queue 0 (Some (fun x : Z => x)) in
  exists q q',
    Queue.run q0 [Queue.Push 5; Queue.Exchange 3] = Some ([None; Some 5], q) /\
    Queue.mQueue q = [3] /\
    Queue.amount q = 5 /\
    Queue.total (Queue.mAmountFunction q) (Queue.mQueue q) = 3 /\
    ~ Queue.amount_inv q /\
    Queue.pop q = Some (Some 3, q') /\
    Queue.mQueue q' = [] /\ Queue.amount q' = 2.
Proof.
  do 2 eexists. repeat split. vm_compute. discriminate.
Qed.

(** C10, witness: a stopped queue that held [1; 2]. *)
Lemma queue_after_stop_witness :
  let q0 := {| Queue.mLimit := 0; Queue.mAmount := 2; Queue.mQueue := [1; 2];
               Queue.mAmountFunction := fun _ : Z => 1;
               Queue.mStopping := false |} in
  let ops := [Queue.Push 7; Queue.Pop; Queue.TryPop; Queue.Pop; Queue.Push 8] in
  forallb Queue.is_push_or_pop ops = true /\
  exists q,
    Queue.run (Queue.stop q0) ops = Some ([None; Some 1; Some 2; None; None], q) /\
    Queue.mQueue q = [].
Proof.
  intros q0 ops. split; [reflexivity|].
  destruct (queue_after_stop q0 ops eq_refl) as (q & Hrun & Hq & _).
  exists q. split; [exact Hrun | exact Hq].
Defined.

(** ** Stored callbacks *)

Section stored_callback_claims.

Context {F Args : Type}.

(** A run of calls with no callable installed invokes nothing and keeps
    the arguments of the last call only. *)
Lemma calls_missed (l : list Args) : forall (prev : option Args) (a : Args),
  StoredCallback.calls
    {| StoredCallback.callback := @None F; StoredCallback.stored := prev |}
    (l ++ [a]) =
  ({| StoredCallback.callback := None; StoredCallback.stored := Some a |}, []).
Proof.
  induction l as [|b l IH]; intros prev a; [reflexivity|].
  cbn [app StoredCallback.calls]. cbn -[StoredCallback.calls].
  now rewrite IH.
Qed.

(** C7: a call made while no callable is installed invokes nothing and
    puts its arguments in the one slot, over what was there; after any run
    of such calls the slot holds the arguments of the last one.  Installing
    a callable while the slot is full invokes it once on the stored
    arguments and empties the slot; installing one while the slot is empty
    invokes nothing. *)
Theorem stored_callback_replay (f : F) (g : option F) (prev : option Args)
  (missed : list Args) (a : Args) :
  StoredCallback.call
    {| StoredCallback.callback := @None F; StoredCallback.stored := prev |} a =
  (true, {| StoredCallback.callback := None; StoredCallback.stored := Some a |},
   []) /\
  StoredCallback.calls
    {| StoredCallback.callback := @None F; StoredCallback.stored := prev |}
    (missed ++ [a]) =
  ({| StoredCallback.callback := None; StoredCallback.stored := Some a |}, []) /\
  StoredCallback.set
    {| StoredCallback.callback := g; StoredCallback.stored := Some a |}
    (Some f) =
  ({| StoredCallback.callback := Some f; StoredCallback.stored := None |},
   [(f, a)]) /\
  StoredCallback.set
    {| StoredCallback.callback := g; StoredCallback.stored := @None Args |}
    (Some f) =
  ({| StoredCallback.callback := Some f; StoredCallback.stored := None |}, []).
Proof.
  split; [reflexivity|]. split; [apply calls_missed|]. split; reflexivity.
Qed.

(** While a callable is installed a call invokes it and stores nothing;
    clearing the callable keeps the slot. *)
Lemma stored_callback_installed (f : F) (st : option Args) (a : Args) :
  StoredCallback.call
    {| StoredCallback.callback := Some f; StoredCallback.stored := st |} a =
  (true, {| StoredCallback.callback := Some f; StoredCallback.stored := st |},
   [(f, a)]) /\
  StoredCallback.set
    {| StoredCallback.callback := Some f; StoredCallback.stored := st |} None =
  ({| StoredCallback.callback := None; StoredCallback.stored := st |}, []).
Proof. split; reflexivity. Qed.

End stored_callback_claims.

(** ** Payload protocol identifiers *)

(** C8: the identifiers are control 50, string 51, binary-partial 52,
    binary 53, string-partial 54, string-empty 56 and binary-empty 57, and
    there is no other. *)
Theorem payload_ids_exact :
  SctpTransport.value SctpTransport.PPID_CONTROL = 50 /\
  SctpTransport.value SctpTransport.PPID_STRING = 51 /\
  SctpTransport.value SctpTransport.PPID_BINARY_PARTIAL = 52 /\
  SctpTransport.value SctpTransport.PPID_BINARY = 53 /\
  SctpTransport.value SctpTransport.PPID_STRING_PARTIAL = 54 /\
  SctpTransport.value SctpTransport.PPID_STRING_EMPTY = 56 /\
  SctpTransport.value SctpTransport.PPID_BINARY_EMPTY = 57 /\
  (forall p, SctpTransport.value p ∈ [50; 51; 52; 53; 54; 56; 57]) /\
  (forall p, SctpTransport.of_value (SctpTransport.value p) = Some p).
Proof.
  repeat (split; [reflexivity|]). split.
  - intros p. destruct p; cbn;
      repeat first [apply list_elem_of_here | apply list_elem_of_further].
  - intros p. destruct p; reflexivity.
Qed.

(** ** WebSocket *)

Section websocket_claims.

Variable DEFAULT_MAX_MESSAGE_SIZE : Z.
Variable Message : Type.
Variable size : Message -> Z.
Variable send_result : Message -> bool.

(** C9: a message larger than [maxMessageSize()], or any message while
    the WebSocket is not open, makes [outgoing] throw, and nothing is
    handed to the transport below. *)
Theorem outgoing_rejects (ws : WebSocket.t) (message : Message) :
  WebSocket.maxMessageSize DEFAULT_MAX_MESSAGE_SIZE ws < size message \/
  WebSocket.state ws <> WebSocket.Open ->
  exists what,
    WebSocket.outgoing DEFAULT_MAX_MESSAGE_SIZE Message size send_result
      ws message =
    (inl (WebSocket.runtime_error what), []).
Proof.
  intros H. unfold WebSocket.outgoing, WebSocket.isOpen.
  destruct (WebSocket.state ws) eqn:Hst; cbn; eauto.
  destruct (WebSocket.mWsTransport ws); cbn; eauto.
  destruct H as [H|H]; [|congruence].
  apply Z.ltb_lt in H. rewrite H. eauto.
Qed.

(** An open WebSocket hands a message within the limit to its
    transport. *)
Lemma outgoing_accepts (ws : WebSocket.t) (message : Message) :
  WebSocket.state ws = WebSocket.Open ->
  WebSocket.mWsTransport ws = true ->
  size message <= WebSocket.maxMessageSize DEFAULT_MAX_MESSAGE_SIZE ws ->
  WebSocket.outgoing DEFAULT_MAX_MESSAGE_SIZE Message size send_result
    ws message =
  (inr (send_result message), [message]).
Proof.
  intros Hst Htr Hsz. unfold WebSocket.outgoing, WebSocket.isOpen.
  rewrite Hst, Htr. cbn.
  destruct (Z.ltb_spec (WebSocket.maxMessageSize DEFAULT_MAX_MESSAGE_SIZE ws)
              (size message)); [lia|reflexivity].
Qed.

End websocket_claims.

(** C9, witness: a message of 4 bytes against a limit of 3 on an open
    WebSocket. *)
Lemma outgoing_rejects_witness :
  let ws := {| WebSocket.state := WebSocket.Open;
               WebSocket.mWsTransport := true |} in
  let size := fun m : list Z => Z.of_nat (length m) in
  (WebSocket.maxMessageSize 3 ws < size [1; 2; 3; 4] \/
   WebSocket.state ws <> WebSocket.Open) /\
  exists what,
    WebSocket.outgoing 3 (list Z) size (fun _ => true) ws [1; 2; 3; 4] =
    (inl (WebSocket.runtime_error what), []).
Proof.
  intros ws size.
  assert (H : WebSocket.maxMessageSize 3 ws < size [1; 2; 3; 4] \/
              WebSocket.state ws <> WebSocket.Open) by (left; reflexivity).
  split; [exact H|].
  exact (outgoing_rejects 3 (list Z) size (fun _ => true) ws [1; 2; 3; 4] H).
Defined.

(** ** The C adapter: callback slots of a peer connection *)

(** The setter of the signaling slot called with a null callback. *)
Lemma signaling_setter_null (pc : Z) (r : CApi.Registry) (p : CApi.PeerConnection) :
  CApi.peerConnectionMap r !! pc = Some p ->
  CApi.rtcSetSignalingStateChangeCallback pc None r =
  (CApi.RTC_ERR_SUCCESS,
   CApi.set_peerConnectionMap
     (<[pc := CApi.onGatheringStateChange None p]> (CApi.peerConnectionMap r))
     r).
Proof.
  intros Hp. unfold CApi.rtcSetSignalingStateChangeCallback,
    CApi.getPeerConnection, CApi.update_peerConnection.
  rewrite Hp. cbn. do 2 f_equal.
  apply map_eq. intros i. rewrite lookup_alter, lookup_insert.
  destruct (decide (pc = i)) as [->|]; [now rewrite Hp|reflexivity].
Qed.

(** Called with a callback, it sets the signaling slot and nothing else. *)
Lemma signaling_setter_nonnull (pc : Z) (f : CApi.FnPtr) (r : CApi.Registry)
  (p : CApi.PeerConnection) :
  CApi.peerConnectionMap r !! pc = Some p ->
  CApi.rtcSetSignalingStateChangeCallback pc (Some f) r =
  (CApi.RTC_ERR_SUCCESS,
   CApi.set_peerConnectionMap
     (<[pc := CApi.onSignalingStateChange
                (Some {| CApi.captured_id := pc; CApi.captured_cb := f |}) p]>
        (CApi.peerConnectionMap r))
     r).
Proof.
  intros Hp. unfold CApi.rtcSetSignalingStateChangeCallback,
    CApi.getPeerConnection, CApi.update_peerConnection.
  rewrite Hp. cbn. do 2 f_equal.
  apply map_eq. intros i. rewrite lookup_alter, lookup_insert.
  destruct (decide (pc = i)) as [->|]; [now rewrite Hp|reflexivity].
Qed.

(** C3, the failing call: on a peer connection whose gathering-state
    callback has been installed, [rtcSetSignalingStateChangeCallback] with
    a null callback succeeds, empties the gathering-state slot and leaves
    the signaling-state slot as it was. *)
Theorem signaling_setter_clears_gathering_slot :
  let r1 := (CApi.rtcSetGatheringStateChangeCallback 1 (Some (CApi.fn 100))
               registry0).2 in
  let out := CApi.rtcSetSignalingStateChangeCallback 1 None r1 in
  CApi.gatheringStateChangeCallback <$> CApi.peerConnectionMap r1 !! 1 =
    Some (Some {| CApi.captured_id := 1; CApi.captured_cb := CApi.fn 100 |}) /\
  out.1 = CApi.RTC_ERR_SUCCESS /\
  CApi.gatheringStateChangeCallback <$> CApi.peerConnectionMap out.2 !! 1 =
    Some None /\
  CApi.signalingStateChangeCallback <$> CApi.peerConnectionMap out.2 !! 1 =
    CApi.signalingStateChangeCallback <$> CApi.peerConnectionMap r1 !! 1.
Proof. vm_compute. auto. Qed.

(** ** The C adapter: tracks *)

(** [rtcAddTrackEx] does for VP9 exactly what it does for VP8. *)
Lemma vp9_same_as_vp8 (pc : Z) (init : CApi.rtcTrackInit) (r : CApi.Registry) :
  CApi.init_codec init = CApi.RTC_CODEC_VP9 ->
  CApi.rtcAddTrackEx pc (Some init) r =
  CApi.rtcAddTrackEx pc
    (Some {| CApi.init_direction := CApi.init_direction init;
             CApi.init_codec := CApi.RTC_CODEC_VP8;
             CApi.init_payloadType := CApi.init_payloadType init;
             CApi.init_ssrc := CApi.init_ssrc init;
             CApi.init_mid := CApi.init_mid init;
             CApi.init_name := CApi.init_name init;
             CApi.init_msid := CApi.init_msid init;
             CApi.init_trackId := CApi.init_trackId init |}) r.
Proof.
  intros Hc. unfold CApi.rtcAddTrackEx. cbn. rewrite Hc. reflexivity.
Qed.

(** C6, the failing call: [rtcAddTrackEx] for VP9 with payload type 98
    succeeds with the new handle 3, and the rtpmap of the track created is
    [VP8/90000], not [VP9/90000]. *)
Theorem vp9_track_gets_vp8_rtpmap :
  let init := {| CApi.init_direction := 1;
                 CApi.init_codec := CApi.RTC_CODEC_VP9;
                 CApi.init_payloadType := 98;
                 CApi.init_ssrc := 42;
                 CApi.init_mid := None;
                 CApi.init_name := None;
                 CApi.init_msid := None;
                 CApi.init_trackId := None |} in
  let out := CApi.rtcAddTrackEx 1 (Some init) registry0 in
  out.1 = 3 /\
  (CApi.rtpMaps ∘ CApi.description) <$> CApi.trackMap out.2 !! 3 =
    Some {[ 98 := {| CApi.payloadType := 98; CApi.format := "VP8";
                     CApi.clockRate := 90000 |} ]} /\
  (CApi.rtpMaps ∘ CApi.description) <$> CApi.trackMap out.2 !! 3 <>
    Some (CApi.rtpMaps (CApi.addVP9Codec 98 (CApi.Video "video" 1))).
Proof. vm_compute. repeat split. discriminate. Qed.

(** ** The C adapter: buffers and messages *)

Lemma string_size_nonneg (s : string) : 0 <= CApi.string_size s.
Proof. unfold CApi.string_size. lia. Qed.

Lemma binary_size_nonneg (b : CApi.binary) : 0 <= CApi.binary_size b.
Proof. unfold CApi.binary_size. lia. Qed.

Lemma getChannel_update_channel (id : Z) (f : CApi.Channel -> CApi.Channel)
  (r : CApi.Registry) (c : CApi.Channel) :
  CApi.getChannel r id = inr c ->
  CApi.getChannel (CApi.update_channel id f r) id = inr (f c).
Proof.
  unfold CApi.getChannel, CApi.update_channel.
  destruct (CApi.dataChannelMap r !! id) as [d|] eqn:Ed.
  - intros [= <-]. cbn. now rewrite lookup_insert_eq.
  - destruct (CApi.trackMap r !! id) as [t|] eqn:Et.
    + intros [= <-]. cbn. now rewrite Ed, lookup_insert_eq.
    + destruct (CApi.webSocketMap r !! id) as [w|] eqn:Ew; [|discriminate].
      intros [= <-]. cbn. rewrite Ed, Et, lookup_alter_eq, Ew. reflexivity.
Qed.

Lemma getUserPointer_update_channel (id i : Z)
  (f : CApi.Channel -> CApi.Channel) (r : CApi.Registry) :
  CApi.getUserPointer (CApi.update_channel id f r) i = CApi.getUserPointer r i.
Proof.
  unfold CApi.getUserPointer, CApi.update_channel.
  destruct (CApi.dataChannelMap r !! id); [reflexivity|].
  destruct (CApi.trackMap r !! id); reflexivity.
Qed.

(** With a null buffer [copyAndReturn] gives the size the value needs. *)
Lemma copyAndReturn_null (s : string) (b : CApi.binary) (size : Z) :
  CApi.string_size s + 1 < 2 ^ 31 ->
  CApi.binary_size b < 2 ^ 31 ->
  CApi.copyAndReturn_string s None size = (CApi.string_size s + 1, None) /\
  CApi.copyAndReturn_binary b None size = (CApi.binary_size b, None).
Proof.
  intros Hs Hb. pose proof (string_size_nonneg s). pose proof (binary_size_nonneg b).
  unfold CApi.copyAndReturn_string, CApi.copyAndReturn_binary.
  rewrite !to_int_small by lia. auto.
Qed.

(** With a buffer and [size == 0] it reports [RTC_ERR_TOO_SMALL], unless
    the value is a binary of no bytes. *)
Lemma copyAndReturn_size_zero (s : string) (b : CApi.binary)
  (mem : list Byte.byte) :
  CApi.string_size s + 1 < 2 ^ 31 ->
  CApi.binary_size b < 2 ^ 31 ->
  CApi.copyAndReturn_string s (Some mem) 0 = (CApi.RTC_ERR_TOO_SMALL, Some mem) /\
  CApi.copyAndReturn_binary b (Some mem) 0 =
    match b with
    | [] => (0, Some mem)
    | _ :: _ => (CApi.RTC_ERR_TOO_SMALL, Some mem)
    end.
Proof.
  intros Hs Hb. pose proof (string_size_nonneg s). pose proof (binary_size_nonneg b).
  unfold CApi.copyAndReturn_string, CApi.copyAndReturn_binary.
  rewrite !to_int_small by lia. split.
  - destruct (Z.ltb_spec 0 (CApi.string_size s + 1)); [reflexivity|lia].
  - destruct b as [|x b]; [reflexivity|].
    destruct (Z.ltb_spec 0 (CApi.binary_size (x :: b))); [reflexivity|].
    unfold CApi.binary_size in *. cbn [length] in *. lia.
Qed.

(** C4 (as amended): it is the null buffer, not [size == 0], that asks for
    the required size.  With a null buffer and any [size], the getters
    return the size the value needs (its length, and one more for the
    terminator of a string) and copy nothing; [rtcReceiveMessage] returns
    [RTC_ERR_SUCCESS], writes that size to [*size] (negated for a string)
    and keeps the message.  With a buffer and [size == 0] the result is
    [RTC_ERR_TOO_SMALL], except for a binary value of no bytes. *)
Theorem null_buffer_returns_required_size (s : string) (b : CApi.binary)
  (size : Z) (r : CApi.Registry) :
  CApi.string_size s + 1 < 2 ^ 31 ->
  CApi.binary_size b < 2 ^ 31 ->
  (forall pc p,
     CApi.peerConnectionMap r !! pc = Some p ->
     CApi.localDescription p = Some s ->
     CApi.rtcGetLocalDescription pc None size r = (CApi.string_size s + 1, None)) /\
  (forall dc d,
     CApi.dataChannelMap r !! dc = Some d -> CApi.label d = s ->
     CApi.rtcGetDataChannelLabel dc None size r = (CApi.string_size s + 1, None)) /\
  (forall moved id c,
     CApi.getChannel r id = inr c -> CApi.peek c = Some (CApi.msg_binary b) ->
     CApi.rtcReceiveMessage moved id None (Some size) r =
     (CApi.RTC_ERR_SUCCESS, None, Some (CApi.binary_size b), r)) /\
  (forall moved id c,
     CApi.getChannel r id = inr c -> CApi.peek c = Some (CApi.msg_string s) ->
     CApi.rtcReceiveMessage moved id None (Some size) r =
     (CApi.RTC_ERR_SUCCESS, None, Some (- (CApi.string_size s + 1)), r)) /\
  (forall dc d mem,
     CApi.dataChannelMap r !! dc = Some d -> CApi.label d = s ->
     CApi.rtcGetDataChannelLabel dc (Some mem) 0 r =
     (CApi.RTC_ERR_TOO_SMALL, Some mem)) /\
  (forall mem,
     CApi.copyAndReturn_binary b (Some mem) 0 =
     match b with
     | [] => (0, Some mem)
     | _ :: _ => (CApi.RTC_ERR_TOO_SMALL, Some mem)
     end).
Proof.
  intros Hs Hb.
  pose proof (string_size_nonneg s) as Hs0.
  pose proof (binary_size_nonneg b) as Hb0.
  destruct (copyAndReturn_null s b size Hs Hb) as [Hcs Hcb].
  repeat split.
  - intros pc p Hp Hd. unfold CApi.rtcGetLocalDescription, CApi.getPeerConnection.
    now rewrite Hp, Hd, Hcs.
  - intros dc d Hd <-. unfold CApi.rtcGetDataChannelLabel, CApi.getDataChannel.
    now rewrite Hd, Hcs.
  - intros moved id c Hc Hpeek. unfold CApi.rtcReceiveMessage.
    rewrite Hc, Hpeek.
    destruct (copyAndReturn_null s b (Int.to_int (Z.abs size)) Hs Hb) as [_ ->].
    destruct (Z.leb_spec 0 (CApi.binary_size b)); [reflexivity|lia].
  - intros moved id c Hc Hpeek. unfold CApi.rtcReceiveMessage.
    rewrite Hc, Hpeek.
    destruct (copyAndReturn_null s b (Int.to_int (Z.abs size)) Hs Hb) as [-> _].
    destruct (Z.leb_spec 0 (CApi.string_size s + 1)); [|lia].
    rewrite to_int_small by lia. reflexivity.
  - intros dc d mem Hd <-. unfold CApi.rtcGetDataChannelLabel, CApi.getDataChannel.
    rewrite Hd.
    now destruct (copyAndReturn_size_zero (CApi.label d) b mem Hs Hb) as [-> _].
  - intros mem. apply (copyAndReturn_size_zero s b mem Hs Hb).
Qed.

(** C4, witness: the label [echo] of the data channel [2]. *)
Lemma null_buffer_returns_required_size_witness :
  CApi.string_size "echo" + 1 < 2 ^ 31 /\
  CApi.binary_size [Byte.x01] < 2 ^ 31 /\
  CApi.rtcGetDataChannelLabel 2 None 0 registry0 = (5, None).
Proof.
  assert (Hs : CApi.string_size "echo" + 1 < 2 ^ 31) by reflexivity.
  assert (Hb : CApi.binary_size [Byte.x01] < 2 ^ 31) by reflexivity.
  split; [exact Hs|]. split; [exact Hb|].
  destruct (null_buffer_returns_required_size "echo" [Byte.x01] 0 registry0
              Hs Hb) as (_ & Hlabel & _).
  eapply Hlabel; reflexivity.
Defined.

(** C4, counterexample to the claim as stated: asked for the label [echo]
    with a buffer and [size == 0], the adapter answers
    [RTC_ERR_TOO_SMALL], not the 5 bytes the label needs. *)
Lemma size_zero_reports_too_small :
  CApi.rtcGetDataChannelLabel 2 (Some []) 0 registry0 =
    (CApi.RTC_ERR_TOO_SMALL, Some []) /\
  CApi.RTC_ERR_TOO_SMALL <> CApi.string_size "echo" + 1.
Proof. split; [reflexivity|discriminate]. Qed.

(** C5 (as amended): a string message reaches the caller with a negative
    size whose absolute value is the length of the string plus one, the
    terminator included, both through the callback installed by
    [rtcSetMessageCallback] and through [rtcReceiveMessage] when it
    succeeds (null buffer, or room for the string and its terminator). *)
Theorem string_message_size_counts_terminator (s : string) (r : CApi.Registry)
  (id : Z) (c : CApi.Channel) :
  CApi.string_size s + 1 < 2 ^ 31 ->
  CApi.getChannel r id = inr c ->
  (forall cb ptr,
     CApi.getUserPointer r id = Some ptr ->
     (CApi.rtcSetMessageCallback id (Some cb) r).1 = CApi.RTC_ERR_SUCCESS /\
     CApi.deliver (CApi.rtcSetMessageCallback id (Some cb) r).2 id
       (CApi.msg_string s) =
     [{| CApi.call_cb := cb; CApi.call_id := id;
         CApi.call_data := String.list_byte_of_string s ++ [Byte.x00];
         CApi.call_size := - (CApi.string_size s + 1);
         CApi.call_ptr := ptr |}]) /\
  (forall moved buf sz,
     CApi.peek c = Some (CApi.msg_string s) ->
     buf = None \/ CApi.string_size s + 1 <= Int.to_int (Z.abs sz) ->
     exists buf' r',
       CApi.rtcReceiveMessage moved id buf (Some sz) r =
       (CApi.RTC_ERR_SUCCESS, buf', Some (- (CApi.string_size s + 1)), r')).
Proof.
  intros Hs Hc. pose proof (string_size_nonneg s) as Hs0. split.
  - intros cb ptr Hptr. unfold CApi.rtcSetMessageCallback. rewrite Hc.
    split; [reflexivity|]. cbn [snd].
    unfold CApi.deliver.
    rewrite (getChannel_update_channel id _ r c Hc).
    cbn [CApi.onMessage CApi.messageCallback].
    unfold CApi.message_closure_string. cbn [CApi.captured_id CApi.captured_cb].
    rewrite getUserPointer_update_channel, Hptr.
    rewrite (to_int_small (CApi.string_size s + 1)) by lia.
    rewrite to_int_small by lia. reflexivity.
  - intros moved buf sz Hpeek Hroom. unfold CApi.rtcReceiveMessage.
    rewrite Hc, Hpeek. unfold CApi.copyAndReturn_string.
    rewrite (to_int_small (CApi.string_size s + 1)) by lia.
    destruct buf as [mem|].
    + destruct Hroom as [?|Hroom]; [discriminate|].
      destruct (Z.ltb_spec (Int.to_int (Z.abs sz)) (CApi.string_size s + 1));
        [lia|].
      destruct (Z.leb_spec 0 (CApi.string_size s + 1)); [|lia].
      rewrite to_int_small by lia. eauto.
    + destruct (Z.leb_spec 0 (CApi.string_size s + 1)); [|lia].
      rewrite to_int_small by lia. eauto.
Qed.

(** C5, witness: the message [hello] waiting on the data channel [2]. *)
Lemma string_message_size_counts_terminator_witness :
  CApi.string_size "hello" + 1 < 2 ^ 31 /\
  CApi.getChannel registry0 2 =
    inr {| CApi.pending := [CApi.msg_string "hello"];
           CApi.messageCallback := None |} /\
  exists buf' r',
    CApi.rtcReceiveMessage (fun _ => EmptyString) 2 None (Some 0) registry0 =
    (CApi.RTC_ERR_SUCCESS, buf', Some (-6), r').
Proof.
  assert (Hs : CApi.string_size "hello" + 1 < 2 ^ 31) by reflexivity.
  split; [exact Hs|]. split; [reflexivity|].
  destruct (string_message_size_counts_terminator "hello" registry0 2 _
              Hs eq_refl) as [_ Hrecv].
  exact (Hrecv (fun _ => EmptyString) None 0 eq_refl (or_introl eq_refl)).
Defined.

(** C5, counterexample to the claim as stated: for the string [hello], of
    length 5, the callback and [rtcReceiveMessage] both report the size
    -6. *)
Lemma string_size_includes_terminator :
  let r := (CApi.rtcSetMessageCallback 2 (Some (CApi.fn 300)) registry0).2 in
  CApi.call_size <$> CApi.deliver r 2 (CApi.msg_string "hello") = [-6] /\
  (CApi.rtcReceiveMessage (fun _ => EmptyString) 2 None (Some 0) registry0).1.2 =
    Some (-6) /\
  Z.abs (-6) <> CApi.string_size "hello".
Proof. vm_compute. repeat split; discriminate. Qed.

(** * Further properties of the queue *)

Section queue_more.

Context {T : Type}.
Implicit Types (q : Queue.t T) (x : T) (o : Queue.op T).

(** No operation changes the limit or the amount function. *)
Lemma step_keeps_parameters q o r q' :
  Queue.step q o = Some (r, q') ->
  Queue.mLimit q' = Queue.mLimit q /\
  Queue.mAmountFunction q' = Queue.mAmountFunction q.
Proof.
  intros Hstep. destruct o as [x| | | |x|]; cbn in Hstep.
  - destruct (Queue.push q x) as [q1|] eqn:E; [|discriminate].
    cbn in Hstep. injection Hstep as _ <-.
    apply push_Some in E as [_ ->]. unfold Queue.pushImpl.
    destruct (Queue.mStopping q); auto.
  - unfold Queue.pop in Hstep. destruct (Queue.pop_ready q); [|discriminate].
    unfold Queue.popImpl in Hstep.
    destruct (Queue.mQueue q); injection Hstep as _ <-; auto.
  - unfold Queue.tryPop, Queue.popImpl in Hstep.
    destruct (Queue.mQueue q); injection Hstep as _ <-; auto.
  - injection Hstep as _ <-. auto.
  - unfold Queue.exchange in Hstep.
    destruct (Queue.mQueue q); injection Hstep as _ <-; auto.
  - injection Hstep as _ <-. auto.
Qed.

Lemma run_keeps_parameters ops : forall q rs q',
  Queue.run q ops = Some (rs, q') ->
  Queue.mLimit q' = Queue.mLimit q /\
  Queue.mAmountFunction q' = Queue.mAmountFunction q.
Proof.
  induction ops as [|o ops IH]; intros q rs q' Hrun.
  - injection Hrun as _ <-. auto.
  - cbn in Hrun.
    destruct (Queue.step q o) as [[r q1]|] eqn:E; [|discriminate].
    cbn in Hrun.
    destruct (Queue.run q1 ops) as [[rs1 q2]|] eqn:E2; [|discriminate].
    cbn in Hrun. injection Hrun as _ <-.
    destruct (step_keeps_parameters _ _ _ _ E) as [H1 H2].
    destruct (IH _ _ _ E2) as [H3 H4]. split; congruence.
Qed.

(** Histories compose. *)
Lemma run_app ops1 : forall ops2 q rs1 q1 rs2 q2,
  Queue.run q ops1 = Some (rs1, q1) ->
  Queue.run q1 ops2 = Some (rs2, q2) ->
  Queue.run q (ops1 ++ ops2) = Some (rs1 ++ rs2, q2).
Proof.
  induction ops1 as [|o ops1 IH]; intros ops2 q rs1 q1 rs2 q2 H1 H2.
  - injection H1 as <- <-. exact H2.
  - cbn in H1 |- *.
    destruct (Queue.step q o) as [[r q']|] eqn:E; [|discriminate].
    cbn in H1 |- *.
    destruct (Queue.run q' ops1) as [[rs q'']|] eqn:E1; [|discriminate].
    cbn in H1. injection H1 as <- <-.
    now rewrite (IH ops2 q' rs q'' rs2 q2 E1 H2).
Qed.

(** X1: on a queue built by the constructor, with any limit and amount
    function, after any history of calls that does not use [exchange],
    [amount()] is the sum of the amounts of the elements left, as a
    [size_t]. *)
Theorem amount_is_sum_without_exchange (limit : Z) (func : option (T -> Z))
  (ops : list (Queue.op T)) rs q :
  forallb (fun o => negb (Queue.is_exchange o)) ops = true ->
  Queue.run (Queue.Queue limit func) ops = Some (rs, q) ->
  Queue.amount q =
    Int.wrap (Queue.total (default (fun _ => 1) func) (Queue.mQueue q)).
Proof.
  intros Hops Hrun.
  destruct (run_keeps_parameters _ _ _ _ Hrun) as [_ Hf]. cbn in Hf.
  rewrite <- Hf. eapply run_amount_inv; eauto. reflexivity.
Qed.

(** X2: with the default amount function, [amount()] equals [size()]
    after any history, [exchange] included, as long as the number of
    elements fits a [size_t]. *)
Theorem default_amount_equals_size (limit : Z) q :
  Queue.reachable limit None q ->
  Queue.size q < Int.size_t_modulus ->
  Queue.amount q = Queue.size q.
Proof.
  intros Hreach Hsz.
  destruct (default_amount_is_size limit q Hreach) as (_ & _ & ->).
  apply wrap_small. unfold Queue.size in *. lia.
Qed.


Lemma run_pushes (xs : list T) : forall q,
  Queue.mStopping q = false ->
  Queue.mLimit q = 0 \/ Queue.size q + Z.of_nat (length xs) <= Queue.mLimit q ->
  exists q',
    Queue.run q (map Queue.Push xs) = Some (replicate (length xs) None, q') /\
    Queue.mQueue q' = Queue.mQueue q ++ xs /\
    Queue.mStopping q' = false.
Proof.
  induction xs as [|x xs IH]; intros q Hs Hroom.
  - exists q. cbn. rewrite app_nil_r. auto.
  - cbn [map Queue.run Queue.step length replicate].
    assert (Hready : Queue.push_ready q = true).
    { apply push_ready_spec. cbn [length] in Hroom. lia. }
    unfold Queue.push. rewrite Hready. cbn.
    assert (Hq1 : Queue.mStopping (Queue.pushImpl q x) = false /\
                  Queue.mQueue (Queue.pushImpl q x) = Queue.mQueue q ++ [x] /\
                  Queue.mLimit (Queue.pushImpl q x) = Queue.mLimit q).
    { unfold Queue.pushImpl. rewrite Hs. cbn. auto. }
    destruct Hq1 as (Hs1 & Hl1 & Hlim1).
    destruct (IH (Queue.pushImpl q x) Hs1) as (q' & Hrun & Hq' & Hs').
    + unfold Queue.size in *. rewrite Hl1, Hlim1, length_app.
      cbn [length] in *. lia.
    + rewrite Hrun. cbn. exists q'. split; [reflexivity|].
      split; [|exact Hs']. rewrite Hq', Hl1. now rewrite <- app_assoc.
Qed.

Lemma run_pops (n : nat) : forall q,
  n = length (Queue.mQueue q) ->
  exists q',
    Queue.run q (replicate n Queue.Pop) = Some (map Some (Queue.mQueue q), q') /\
    Queue.mQueue q' = [] /\ Queue.mStopping q' = Queue.mStopping q.
Proof.
  induction n as [|n IH]; intros q Hn.
  - destruct (Queue.mQueue q) eqn:E; [|discriminate]. exists q. cbn. auto.
  - destruct (Queue.mQueue q) as [|y l] eqn:E; [discriminate|].
    cbn [replicate Queue.run Queue.step].
    unfold Queue.pop, Queue.pop_ready, Queue.empty, Queue.popImpl.
    rewrite E. cbn.
    match goal with |- context [Queue.run ?q1 _] => destruct (IH q1) as (q' & Hrun & Hq' & Hs') end.
    + cbn. cbn in Hn. lia.
    + rewrite Hrun. cbn. exists q'. auto.
Qed.

(** X4: first in, first out.  On a queue that is not stopped and has room
    for them (no limit, or [size() + |xs| <= limit]), pushing [xs] and then
    popping as often as there are elements blocks nowhere, returns what
    the queue held followed by [xs], in that order, and empties the
    queue. *)
Theorem push_then_pop_is_fifo (xs : list T) q :
  Queue.mStopping q = false ->
  Queue.mLimit q = 0 \/ Queue.size q + Z.of_nat (length xs) <= Queue.mLimit q ->
  exists q',
    Queue.run q
      (map Queue.Push xs ++
       replicate (length (Queue.mQueue q) + length xs) Queue.Pop) =
    Some (replicate (length xs) None ++ map Some (Queue.mQueue q ++ xs), q') /\
    Queue.mQueue q' = [].
Proof.
  intros Hs Hroom.
  destruct (run_pushes xs q Hs Hroom) as (q1 & Hrun1 & Hq1 & _).
  destruct (run_pops (length (Queue.mQueue q) + length xs) q1) as (q2 & Hrun2 & Hq2 & _).
  { now rewrite Hq1, length_app. }
  exists q2. split; [|exact Hq2].
  rewrite <- Hq1. eapply run_app; eauto.
Qed.

(** X5: [pop()] blocks exactly when the queue is empty and not stopped;
    it returns nothing only on a stopped, empty queue, which it leaves as
    it is; otherwise it returns the oldest element and removes it. *)
Theorem pop_blocks_or_returns_front q :
  (Queue.pop q = None <->
   Queue.mQueue q = [] /\ Queue.mStopping q = false) /\
  (forall q', Queue.pop q = Some (None, q') ->
     Queue.mStopping q = true /\ Queue.mQueue q = [] /\ q' = q) /\
  (forall x q', Queue.pop q = Some (Some x, q') ->
     Queue.mQueue q = x :: Queue.mQueue q' /\
     Queue.size q' = Queue.size q - 1).
Proof.
  unfold Queue.pop, Queue.pop_ready, Queue.empty, Queue.popImpl, Queue.size.
  destruct (Queue.mQueue q) as [|y l] eqn:E;
    destruct (Queue.mStopping q) eqn:Hs; cbn.
  - split; [split; [discriminate|intros [_ ?]; discriminate]|].
    split; [intros q' [= <-]; auto|discriminate].
  - split; [tauto|]. split; discriminate.
  - split; [split; [discriminate|intros [? _]; discriminate]|].
    split; [discriminate|]. intros x q' [= <- <-]. cbn. split; [reflexivity|lia].
  - split; [split; [discriminate|intros [? _]; discriminate]|].
    split; [discriminate|]. intros x q' [= <- <-]. cbn. split; [reflexivity|lia].
Qed.

(** X6: for a queue without limit [full()] is true all the time although
    [push] never blocks; for a queue with a limit that is not stopped,
    [push] blocks exactly when [full()] is true. *)
Theorem full_and_push q x :
  (Queue.mLimit q = 0 ->
   Queue.full q = true /\ Queue.push q x <> None) /\
  (Queue.mLimit q <> 0 -> Queue.mStopping q = false ->
   (Queue.push q x = None <-> Queue.full q = true)).
Proof.
  unfold Queue.full, Queue.push, Queue.push_ready. split.
  - intros ->. cbn. split; [apply Z.leb_le; unfold Queue.size; lia|congruence].
  - intros Hl ->. destruct (Z.eqb_spec (Queue.mLimit q) 0); [contradiction|].
    rewrite orb_false_r. cbn.
    destruct (Z.ltb_spec (Queue.size q) (Queue.mLimit q));
      destruct (Z.leb_spec (Queue.mLimit q) (Queue.size q));
      try lia; split; try discriminate; auto.
Qed.

(** On a stopped queue every one of the six operations goes through, and
    none adds an element. *)
Lemma step_stopped q o :
  Queue.mStopping q = true ->
  exists r q',
    Queue.step q o = Some (r, q') /\ Queue.mStopping q' = true /\
    (length (Queue.mQueue q') <= length (Queue.mQueue q))%nat.
Proof.
  intros Hs. destruct o as [x| | | |x|]; cbn.
  - rewrite (push_stopped q x Hs). cbn. do 2 eexists. split; [reflexivity|]. auto.
  - rewrite (pop_stopped q Hs). unfold Queue.popImpl.
    destruct (Queue.mQueue q) eqn:E; do 2 eexists; (split; [reflexivity|]);
      cbn; rewrite ?E; cbn; (split; [assumption|lia]).
  - unfold Queue.tryPop, Queue.popImpl.
    destruct (Queue.mQueue q) eqn:E; do 2 eexists; (split; [reflexivity|]);
      cbn; rewrite ?E; cbn; (split; [assumption|lia]).
  - do 2 eexists. split; [reflexivity|]. auto.
  - unfold Queue.exchange.
    destruct (Queue.mQueue q) eqn:E; do 2 eexists; (split; [reflexivity|]);
      cbn; rewrite ?E; cbn; (split; [assumption|lia]).
  - do 2 eexists. split; [reflexivity|]. cbn. auto.
Qed.

(** X7: stopping is for good.  After [stop()], any history of the six
    operations runs without blocking, leaves the queue stopped, and never
    makes it longer than it was at the stop. *)
Theorem stop_is_permanent q0 (ops : list (Queue.op T)) :
  exists rs q,
    Queue.run (Queue.stop q0) ops = Some (rs, q) /\
    Queue.mStopping q = true /\
    Queue.size q <= Queue.size q0.
Proof.
  assert (H : forall ops q, Queue.mStopping q = true ->
            exists rs q', Queue.run q ops = Some (rs, q') /\
              Queue.mStopping q' = true /\
              (length (Queue.mQueue q') <= length (Queue.mQueue q))%nat).
  { clear. induction ops as [|o ops IH]; intros q Hs.
    - exists [], q. cbn. auto.
    - destruct (step_stopped q o Hs) as (r & q1 & Hstep & Hs1 & Hlen).
      destruct (IH q1 Hs1) as (rs & q2 & Hrun & Hs2 & Hlen2).
      exists (r :: rs), q2. cbn. rewrite Hstep. cbn. rewrite Hrun. cbn.
      split; [reflexivity|]. split; [assumption|lia]. }
  destruct (H ops (Queue.stop q0) eq_refl) as (rs & q & Hrun & Hs & Hlen).
  exists rs, q. unfold Queue.size. cbn in Hlen. split; [assumption|].
  split; [assumption|lia].
Qed.

End queue_more.

(** * Further properties of stored callbacks *)

Section stored_callback_more.

Context {F Args : Type}.
Implicit Types (s : StoredCallback.t F Args) (o : StoredCallback.op F Args).






End stored_callback_more.

(** * Further properties of the WebSocket *)

Section websocket_more.

Variable Message : Type.
Variable type : Message -> WebSocket.MessageType.

Implicit Types (w : WebSocket.socket Message) (q : Queue.t Message).

(** X9: [remoteClose()] always leaves the WebSocket [Closed], and a second
    call does nothing.  If it was not [Closed] already, the three
    transports are taken out and handed over for stopping.  The closed
    callback is triggered exactly when the WebSocket was [Closing], or was
    [Connecting] or [Open] with its WebSocket transport in place: when the
    connection goes down before that transport exists, it is not
    triggered. *)
Theorem remote_close_outcome w :
  let w' := (WebSocket.remoteClose Message w).1 in
  let ev := (WebSocket.remoteClose Message w).2 in
  WebSocket.state (WebSocket.core Message w') = WebSocket.Closed /\
  WebSocket.remoteClose Message w' = (w', []) /\
  (WebSocket.state (WebSocket.core Message w) <> WebSocket.Closed ->
   WebSocket.mWsTransport (WebSocket.core Message w') = false /\
   WebSocket.mTlsTransport Message w' = false /\
   WebSocket.mTcpTransport Message w' = false /\
   WebSocket.StopTransports
     (WebSocket.mWsTransport (WebSocket.core Message w))
     (WebSocket.mTlsTransport Message w)
     (WebSocket.mTcpTransport Message w) ∈ ev) /\
  (WebSocket.TriggerClosed ∈ ev <->
   WebSocket.state (WebSocket.core Message w) = WebSocket.Closing \/
   (WebSocket.state (WebSocket.core Message w) <> WebSocket.Closed /\
    WebSocket.mWsTransport (WebSocket.core Message w) = true)).
Proof.
  destruct w as [[st ws] tls tcp q].
  destruct st, ws; cbn;
    (split; [reflexivity|]); (split; [reflexivity|]); split;
    try (intros H; try congruence; repeat split;
         rewrite !elem_of_cons; eauto 6; fail);
    rewrite ?elem_of_cons, ?elem_of_nil; intuition congruence.
Qed.

(** X10: [close()] on a WebSocket that is [Connecting] or [Open] but has
    no WebSocket transport yet marks it [Closed] and does nothing else:
    the closed callback is not triggered and the TCP and TLS transports
    stay in place; a [remoteClose()] that follows finds it [Closed] and
    does nothing either. *)
Theorem close_before_ws_transport w :
  WebSocket.state (WebSocket.core Message w) = WebSocket.Connecting \/
  WebSocket.state (WebSocket.core Message w) = WebSocket.Open ->
  WebSocket.mWsTransport (WebSocket.core Message w) = false ->
  let w' := (WebSocket.close Message w).1 in
  WebSocket.close Message w = (WebSocket.set_state Message WebSocket.Closed w, []) /\
  WebSocket.mTcpTransport Message w' = WebSocket.mTcpTransport Message w /\
  WebSocket.mTlsTransport Message w' = WebSocket.mTlsTransport Message w /\
  WebSocket.remoteClose Message w' = (w', []).
Proof.
  destruct w as [[st ws] tls tcp q]. cbn. intros [-> | ->] ->; cbn; auto.
Qed.

Lemma tryPop_cons q (m : Message) (l : list Message) :
  Queue.mQueue q = m :: l ->
  (Queue.tryPop q).1 = Some m /\ Queue.mQueue (Queue.tryPop q).2 = l.
Proof. unfold Queue.tryPop, Queue.popImpl. intros ->. auto. Qed.

Lemma receive_loop_spec (cs : list Message) : forall (rest : list Message) q turns,
  Queue.mQueue q = cs ++ rest ->
  Forall (fun m => WebSocket.is_control Message type m = true) cs ->
  match rest with
  | [] => True
  | m :: _ => WebSocket.is_control Message type m = false
  end ->
  (length (cs ++ rest) < turns)%nat ->
  (WebSocket.receive_loop Message type turns q).1 = head rest /\
  Queue.mQueue (WebSocket.receive_loop Message type turns q).2 = tail rest.
Proof.
  induction cs as [|c cs IH]; intros rest q turns Hq Hcs Hrest Hturns.
  - cbn in Hq. destruct turns as [|turns]; [cbn in Hturns; lia|]. cbn.
    unfold Queue.tryPop, Queue.popImpl. rewrite Hq.
    destruct rest as [|m rest]; [cbn; auto|]. rewrite Hrest. cbn. auto.
  - destruct turns as [|turns]; [cbn in Hturns; lia|].
    cbn [WebSocket.receive_loop].
    destruct (tryPop_cons q c (cs ++ rest) Hq) as [Hr Hl].
    destruct (Queue.tryPop q) as [r q1]. cbn in Hr, Hl. subst r.
    inversion Hcs as [|? ? Hc Hcs']; subst. rewrite Hc. cbn.
    apply IH; auto. cbn in Hturns. lia.
Qed.

Lemma peek_loop_spec (cs : list Message) : forall (rest : list Message) q turns,
  Queue.mQueue q = cs ++ rest ->
  Forall (fun m => WebSocket.is_control Message type m = true) cs ->
  match rest with
  | [] => True
  | m :: _ => WebSocket.is_control Message type m = false
  end ->
  (length (cs ++ rest) < turns)%nat ->
  (WebSocket.peek_loop Message type turns q).1 = head rest /\
  Queue.mQueue (WebSocket.peek_loop Message type turns q).2 = rest.
Proof.
  induction cs as [|c cs IH]; intros rest q turns Hq Hcs Hrest Hturns.
  - cbn in Hq. destruct turns as [|turns]; [cbn in Hturns; lia|]. cbn.
    unfold Queue.peek. rewrite Hq.
    destruct rest as [|m rest]; [cbn; auto|]. cbn. rewrite Hrest. cbn. auto.
  - destruct turns as [|turns]; [cbn in Hturns; lia|].
    cbn [WebSocket.peek_loop]. unfold Queue.peek. rewrite Hq. cbn [hd_error app].
    inversion Hcs as [|? ? Hc Hcs']; subst. rewrite Hc. cbn [negb].
    destruct (tryPop_cons q c (cs ++ rest) Hq) as [_ Hl].
    apply IH; auto. cbn in Hturns. lia.
Qed.

Lemma receive_spec w (cs rest : list Message) :
  Queue.mQueue (WebSocket.mRecvQueue Message w) = cs ++ rest ->
  Forall (fun m => WebSocket.is_control Message type m = true) cs ->
  match rest with
  | [] => True
  | m :: _ => WebSocket.is_control Message type m = false
  end ->
  (WebSocket.receive Message type w).1 = head rest /\
  Queue.mQueue
    (WebSocket.mRecvQueue Message (WebSocket.receive Message type w).2) =
    tail rest.
Proof.
  intros Hq Hcs Hrest. unfold WebSocket.receive.
  pose proof (receive_loop_spec cs rest (WebSocket.mRecvQueue Message w)
    (S (length (Queue.mQueue (WebSocket.mRecvQueue Message w)))) Hq Hcs Hrest)
    as H.
  destruct (WebSocket.receive_loop _ _ _ _) as [r q1]. cbn in *.
  apply H. rewrite Hq. lia.
Qed.

Lemma peek_spec w (cs rest : list Message) :
  Queue.mQueue (WebSocket.mRecvQueue Message w) = cs ++ rest ->
  Forall (fun m => WebSocket.is_control Message type m = true) cs ->
  match rest with
  | [] => True
  | m :: _ => WebSocket.is_control Message type m = false
  end ->
  (WebSocket.peek Message type w).1 = head rest /\
  Queue.mQueue
    (WebSocket.mRecvQueue Message (WebSocket.peek Message type w).2) = rest.
Proof.
  intros Hq Hcs Hrest. unfold WebSocket.peek.
  pose proof (peek_loop_spec cs rest (WebSocket.mRecvQueue Message w)
    (S (length (Queue.mQueue (WebSocket.mRecvQueue Message w)))) Hq Hcs Hrest)
    as H.
  destruct (WebSocket.peek_loop _ _ _ _) as [r q1]. cbn in *.
  apply H. rewrite Hq. lia.
Qed.

(** X11: [receive()] and [peek()] skip control messages.  When the queue
    holds control messages [cs] followed by [rest], which is empty or
    starts with a message that is not a control message, both return the
    first message of [rest], or nothing when [rest] is empty; both drop
    [cs] from the queue; [receive()] also takes the message returned off
    the queue and [peek()] keeps it at the front. *)
Theorem receive_and_peek_skip_control w (cs rest : list Message) :
  Queue.mQueue (WebSocket.mRecvQueue Message w) = cs ++ rest ->
  Forall (fun m => WebSocket.is_control Message type m = true) cs ->
  match rest with
  | [] => True
  | m :: _ => WebSocket.is_control Message type m = false
  end ->
  (WebSocket.receive Message type w).1 = head rest /\
  Queue.mQueue
    (WebSocket.mRecvQueue Message (WebSocket.receive Message type w).2) =
    tail rest /\
  (WebSocket.peek Message type w).1 = head rest /\
  Queue.mQueue
    (WebSocket.mRecvQueue Message (WebSocket.peek Message type w).2) = rest.
Proof.
  intros Hq Hcs Hrest.
  destruct (receive_spec w cs rest Hq Hcs Hrest) as [Hr1 Hr2].
  destruct (peek_spec w cs rest Hq Hcs Hrest) as [Hp1 Hp2].
  auto.
Qed.

(** X12: [incoming] puts data messages only into the receive queue.  A
    control or reset message changes nothing.  A string or binary message
    goes to the back of the queue when the queue is not stopped and has
    room, and the available callback is triggered with the new number of
    messages; while the queue holds [limit] messages the call blocks; once
    the queue is stopped the message is dropped. *)
Theorem incoming_queues_data_only w (m : Message) :
  let q := WebSocket.mRecvQueue Message w in
  (type m = WebSocket.Control \/ type m = WebSocket.Reset ->
   WebSocket.incoming Message type (Some m) w = Some (w, [])) /\
  (type m = WebSocket.String \/ type m = WebSocket.Binary ->
   (Queue.mStopping q = false ->
    Queue.mLimit q = 0 \/ Queue.size q < Queue.mLimit q ->
    exists w',
      WebSocket.incoming Message type (Some m) w =
        Some (w', [WebSocket.TriggerAvailable (Queue.size q + 1)]) /\
      Queue.mQueue (WebSocket.mRecvQueue Message w') = Queue.mQueue q ++ [m] /\
      WebSocket.core Message w' = WebSocket.core Message w) /\
   (Queue.mStopping q = false -> Queue.mLimit q <> 0 ->
    Queue.mLimit q <= Queue.size q ->
    WebSocket.incoming Message type (Some m) w = None) /\
   (Queue.mStopping q = true ->
    WebSocket.incoming Message type (Some m) w =
      Some (w, [WebSocket.TriggerAvailable (Queue.size q)]))).
Proof.
  intros q. split.
  - intros [H|H]; unfold WebSocket.incoming; now rewrite H.
  - intros Hty.
    assert (Hinc : WebSocket.incoming Message type (Some m) w =
              q' ← Queue.push q m;
              Some (WebSocket.set_mRecvQueue Message q' w,
                    [WebSocket.TriggerAvailable (Queue.size q')])).
    { unfold WebSocket.incoming. destruct Hty as [-> | ->]; reflexivity. }
    rewrite Hinc. unfold Queue.push, Queue.push_ready.
    repeat split.
    + intros Hs Hroom. rewrite Hs.
      assert (Hr : (Queue.mLimit q =? 0) || (Queue.size q <? Queue.mLimit q) = true).
      { apply orb_true_iff. rewrite Z.eqb_eq, Z.ltb_lt. tauto. }
      rewrite Hr. cbn.
      assert (Hq1 : Queue.mQueue (Queue.pushImpl q m) = Queue.mQueue q ++ [m]).
      { unfold Queue.pushImpl. now rewrite Hs. }
      exists (WebSocket.set_mRecvQueue Message (Queue.pushImpl q m) w).
      split; [|split; [exact Hq1|reflexivity]].
      do 4 f_equal. unfold Queue.size. rewrite Hq1, length_app. cbn. lia.
    + intros Hs Hl Hfull. rewrite Hs.
      destruct (Z.eqb_spec (Queue.mLimit q) 0); [contradiction|].
      destruct (Z.ltb_spec (Queue.size q) (Queue.mLimit q)); [lia|reflexivity].
    + intros Hs. rewrite Hs, orb_true_r. cbn. unfold Queue.pushImpl.
      rewrite Hs. subst q. destruct w; reflexivity.
Qed.

End websocket_more.

(** * Further properties of the C adapter *)

(** ** Handles *)




Lemma emplace_lookup_Some {V : Type} (k k' : Z) (v x : V) (m : gmap Z V) :
  m !! k' = Some x -> CApi.emplace k v m !! k' = Some x.
Proof.
  intros H. unfold CApi.emplace. destruct (m !! k) eqn:E; [assumption|].
  destruct (decide (k = k')) as [<-|Hne]; [congruence|].
  now rewrite lookup_insert_ne.
Qed.

(** The way through [rtcAddTrackEx] when nothing is thrown. *)
Lemma rtcAddTrackEx_success (pc : Z) (init : CApi.rtcTrackInit)
  (r : CApi.Registry) (p : CApi.PeerConnection) :
  CApi.peerConnectionMap r !! pc = Some p ->
  (forall v, CApi.init_codec init <> CApi.RTC_CODEC_other v) ->
  exists desc,
    CApi.codec_description (CApi.init_codec init)
      (default (CApi.default_mid (CApi.init_codec init)) (CApi.init_mid init))
      (CApi.init_direction init) (CApi.init_payloadType init) = Some desc /\
    CApi.rtcAddTrackEx pc (Some init) r =
    let t := CApi.addTrack
               (CApi.addSSRC (CApi.init_ssrc init) (CApi.init_name init)
                  (CApi.init_msid init) (CApi.init_trackId init) desc) in
    ((CApi.emplaceTrack t r).1,
     match CApi.getUserPointer (CApi.emplaceTrack t r).2 pc with
     | Some ptr =>
         CApi.setUserPointer (CApi.emplaceTrack t r).1 ptr
           (CApi.emplaceTrack t r).2
     | None => (CApi.emplaceTrack t r).2
     end).
Proof.
  intros Hp Hcodec. unfold CApi.rtcAddTrackEx, CApi.getPeerConnection.
  rewrite Hp.
  destruct (CApi.codec_description _ _ _ _) as [desc|] eqn:E.
  - exists desc. split; reflexivity.
  - destruct (CApi.init_codec init) eqn:Ec; try discriminate.
    now destruct (Hcodec v).
Qed.

(** X14: a track made by [rtcAddTrackEx] for one of the six codecs, on a
    peer connection that has a user pointer, gets the handle
    [int(lastId + 1)] and the user pointer of the peer connection, which
    keeps its own. *)
Theorem added_track_inherits_user_pointer (pc : Z) (init : CApi.rtcTrackInit)
  (r : CApi.Registry) (p : CApi.PeerConnection) (ptr : Z) :
  CApi.peerConnectionMap r !! pc = Some p ->
  (forall v, CApi.init_codec init <> CApi.RTC_CODEC_other v) ->
  CApi.getUserPointer r pc = Some ptr ->
  let out := CApi.rtcAddTrackEx pc (Some init) r in
  out.1 = Int.to_int (CApi.lastId r + 1) /\
  CApi.lastId out.2 = out.1 /\
  CApi.rtcGetUserPointer out.1 out.2 = ptr /\
  CApi.getUserPointer out.2 pc = Some ptr.
Proof.
  intros Hp Hcodec Hptr out.
  destruct (rtcAddTrackEx_success pc init r p Hp Hcodec) as (desc & _ & Hadd).
  subst out. rewrite Hadd. clear Hadd. cbn zeta.
  set (t := CApi.addTrack _).
  assert (H1 : CApi.getUserPointer (CApi.emplaceTrack t r).2 pc = Some ptr).
  { unfold CApi.getUserPointer in *. cbn. now apply emplace_lookup_Some. }
  rewrite H1. cbn [fst snd].
  unfold CApi.rtcGetUserPointer, CApi.getUserPointer in *. cbn in *.
  split; [reflexivity|]. split; [reflexivity|].
  rewrite lookup_insert_eq. split; [reflexivity|].
  destruct (decide (Int.to_int (CApi.lastId r + 1) = pc)) as [->|Hne];
    [now rewrite lookup_insert_eq|now rewrite lookup_insert_ne by assumption].
Qed.

(** X15: deleting a data channel.  On a valid handle
    [rtcDeleteDataChannel] succeeds and removes the channel and its user
    pointer, whatever else the registry holds stays, and [lastId] is not
    taken back, so that the handle is not given out again.  Afterwards the
    handle is unknown: a second delete and the label getter answer
    [RTC_ERR_INVALID] and change nothing, and [rtcGetUserPointer] gives
    null. *)
Theorem delete_data_channel (dc : Z) (r : CApi.Registry) (d : CApi.DataChannel) :
  CApi.dataChannelMap r !! dc = Some d ->
  let out := CApi.rtcDeleteDataChannel dc r in
  out.1 = CApi.RTC_ERR_SUCCESS /\
  CApi.dataChannelMap out.2 = delete dc (CApi.dataChannelMap r) /\
  CApi.userPointerMap out.2 = delete dc (CApi.userPointerMap r) /\
  CApi.peerConnectionMap out.2 = CApi.peerConnectionMap r /\
  CApi.trackMap out.2 = CApi.trackMap r /\
  CApi.lastId out.2 = CApi.lastId r /\
  (CApi.handles_bounded r -> CApi.handles_bounded out.2) /\
  CApi.rtcDeleteDataChannel dc out.2 = (CApi.RTC_ERR_INVALID, out.2) /\
  (forall buf size,
     CApi.rtcGetDataChannelLabel dc buf size out.2 =
     (CApi.RTC_ERR_INVALID, buf)) /\
  CApi.rtcGetUserPointer dc out.2 = 0.
Proof.
  intros Hd. unfold CApi.rtcDeleteDataChannel at 1, CApi.getDataChannel,
    CApi.eraseDataChannel. rewrite Hd. cbn.
  repeat (split; [reflexivity|]). split; [|split; [|split]].
  - intros (H0 & Hp & Hdc & Ht & Hw). unfold CApi.handles_bounded. cbn.
    split; [assumption|]. split; [exact Hp|]. split; [|split; assumption].
    intros i [x Hx]. apply lookup_delete_Some in Hx as [_ Hx].
    apply Hdc. eauto.
  - unfold CApi.rtcDeleteDataChannel, CApi.getDataChannel. cbn.
    now rewrite lookup_delete_eq.
  - intros buf size. unfold CApi.rtcGetDataChannelLabel, CApi.getDataChannel.
    cbn. now rewrite lookup_delete_eq.
  - unfold CApi.rtcGetUserPointer, CApi.getUserPointer. cbn.
    now rewrite lookup_delete_eq.
Qed.

(** X16: the lambdas installed by [rtcSetMessageCallback] look the user
    pointer up by handle when they run, so once the handle of the channel
    has been erased they call nothing, for a string as for a binary
    message. *)
Theorem erased_handle_silences_callbacks (id : Z) (cb : CApi.FnPtr)
  (r r' : CApi.Registry) (s : string) (b : CApi.binary) :
  CApi.eraseDataChannel id r = inr r' \/ CApi.eraseWebSocket id r = inr r' ->
  let c := {| CApi.captured_id := id; CApi.captured_cb := cb |} in
  CApi.message_closure_string r' c s = [] /\
  CApi.message_closure_binary r' c b = [].
Proof.
  intros He c.
  assert (Hptr : CApi.getUserPointer r' id = None).
  { unfold CApi.getUserPointer, CApi.eraseDataChannel, CApi.eraseWebSocket in *.
    destruct He as [He|He];
      [destruct (CApi.dataChannelMap r !! id)
      |destruct (CApi.webSocketMap r !! id)];
      try discriminate; injection He as <-; cbn; apply lookup_delete_eq. }
  subst c. unfold CApi.message_closure_string, CApi.message_closure_binary.
  cbn [CApi.captured_id CApi.captured_cb]. now rewrite Hptr.
Qed.

(** X17: an unknown handle is an error with no effect.  When [id] is the
    handle of no object, the callback setters, the getters, the message
    functions, [rtcAddTrackEx] and the delete functions all return
    [RTC_ERR_INVALID] and leave the registry, the buffer and [*size] as
    they were, and nothing is sent. *)
Theorem unknown_handle_is_invalid (id : Z) (r : CApi.Registry) :
  CApi.peerConnectionMap r !! id = None ->
  CApi.dataChannelMap r !! id = None ->
  CApi.trackMap r !! id = None ->
  CApi.webSocketMap r !! id = None ->
  (forall cb,
     CApi.rtcSetStateChangeCallback id cb r = (CApi.RTC_ERR_INVALID, r) /\
     CApi.rtcSetGatheringStateChangeCallback id cb r = (CApi.RTC_ERR_INVALID, r) /\
     CApi.rtcSetSignalingStateChangeCallback id cb r = (CApi.RTC_ERR_INVALID, r) /\
     CApi.rtcSetMessageCallback id cb r = (CApi.RTC_ERR_INVALID, r)) /\
  (forall buf size,
     CApi.rtcGetLocalDescription id buf size r = (CApi.RTC_ERR_INVALID, buf) /\
     CApi.rtcGetDataChannelLabel id buf size r = (CApi.RTC_ERR_INVALID, buf)) /\
  (forall moved buf size,
     CApi.rtcReceiveMessage moved id buf size r =
     (CApi.RTC_ERR_INVALID, buf, size, r)) /\
  (forall send data size,
     CApi.rtcSendMessage send id data size r = (CApi.RTC_ERR_INVALID, [])) /\
  (forall init, CApi.rtcAddTrackEx id init r = (CApi.RTC_ERR_INVALID, r)) /\
  CApi.rtcDeletePeerConnection id r = (CApi.RTC_ERR_INVALID, r) /\
  CApi.rtcDeleteDataChannel id r = (CApi.RTC_ERR_INVALID, r).
Proof.
  intros Hp Hd Ht Hw.
  assert (Hc : CApi.getChannel r id =
            inl (CApi.invalid_argument
                   "DataChannel, Track, or WebSocket ID does not exist")).
  { unfold CApi.getChannel. now rewrite Hd, Ht, Hw. }
  unfold CApi.rtcSetStateChangeCallback, CApi.rtcSetGatheringStateChangeCallback,
    CApi.rtcSetSignalingStateChangeCallback, CApi.rtcSetMessageCallback,
    CApi.rtcGetLocalDescription, CApi.rtcGetDataChannelLabel,
    CApi.rtcReceiveMessage, CApi.rtcSendMessage, CApi.rtcAddTrackEx,
    CApi.rtcDeletePeerConnection, CApi.rtcDeleteDataChannel,
    CApi.getPeerConnection, CApi.getDataChannel.
  rewrite Hp, Hd, Hc. cbn. repeat split.
Qed.

(** ** Buffers and messages, continued *)

Lemma length_list_byte_of_string (s : string) :
  length (String.list_byte_of_string s) = String.length s.
Proof.
  unfold String.list_byte_of_string. rewrite length_map.
  induction s as [|c s IH]; cbn; [reflexivity|now rewrite IH].
Qed.

Lemma c_str_terminated (l rest : list Byte.byte) :
  Byte.x00 ∉ l -> CApi.c_str (l ++ Byte.x00 :: rest) = l.
Proof.
  induction l as [|b l IH]; intros Hnul; [reflexivity|].
  apply not_elem_of_cons in Hnul as [Hb Hl]. cbn.
  destruct (Byte.eqb b Byte.x00) eqn:E.
  - apply Byte.byte_dec_bl in E. congruence.
  - now rewrite IH.
Qed.

(** X18: a string copied into a buffer can be read back.  When the
    buffer has the [size] bytes it is said to have and [size] is at least
    the length of the string plus one, [copyAndReturn] returns that length
    plus one, writes the string and a null byte at the start of the buffer
    and leaves every byte after them as it was; if the string has no null
    byte in it, reading the buffer as a C string gives the string back. *)
Theorem copied_string_reads_back (s : string) (mem : list Byte.byte) (size : Z) :
  CApi.string_size s + 1 < 2 ^ 31 ->
  CApi.string_size s + 1 <= size ->
  size <= Z.of_nat (length mem) ->
  let out := CApi.copyAndReturn_string s (Some mem) size in
  out.1 = CApi.string_size s + 1 /\
  exists mem',
    out.2 = Some mem' /\
    length mem' = length mem /\
    take (S (String.length s)) mem' =
      String.list_byte_of_string s ++ [Byte.x00] /\
    drop (S (String.length s)) mem' = drop (S (String.length s)) mem /\
    (Byte.x00 ∉ String.list_byte_of_string s ->
     String.string_of_list_byte (CApi.c_str mem') = s).
Proof.
  intros Hint Hsize Hmem. pose proof (string_size_nonneg s) as H0.
  unfold CApi.copyAndReturn_string. rewrite to_int_small by lia.
  destruct (Z.ltb_spec size (CApi.string_size s + 1)); [lia|]. cbn.
  split; [reflexivity|]. eexists. split; [reflexivity|].
  unfold CApi.overwrite.
  assert (Hlen : length (String.list_byte_of_string s ++ [Byte.x00]) =
                 S (String.length s)).
  { rewrite length_app, length_list_byte_of_string. cbn. lia. }
  unfold CApi.string_size in *.
  split; [|split; [|split]].
  - rewrite length_app, length_drop, Hlen. lia.
  - rewrite <- Hlen. apply take_app_length.
  - rewrite <- Hlen at 1. rewrite drop_app_length. now rewrite Hlen.
  - intros Hnul. rewrite <- app_assoc. cbn.
    rewrite c_str_terminated by assumption.
    apply String.string_of_list_byte_of_string.
Qed.

(** X19: what the message callback hands out can be sent back as it is.
    The data and size given to the callback for a string message, passed
    on to [rtcSendMessage], send that string again, provided it has no
    null byte in it; those given for a binary message send those bytes
    again. *)
Theorem callback_arguments_echo (send : CApi.message_variant -> CApi.exn + bool)
  (r : CApi.Registry) (id : Z) (ch : CApi.Channel) (c : CApi.Closure)
  (ptr : Z) (s : string) (b : CApi.binary) :
  CApi.string_size s + 1 < 2 ^ 31 ->
  CApi.binary_size b < 2 ^ 31 ->
  Byte.x00 ∉ String.list_byte_of_string s ->
  CApi.getChannel r id = inr ch ->
  CApi.getUserPointer r (CApi.captured_id c) = Some ptr ->
  (exists call,
     CApi.message_closure_string r c s = [call] /\
     (CApi.rtcSendMessage send id (Some (CApi.call_data call))
        (CApi.call_size call) r).2 = [CApi.msg_string s]) /\
  (exists call,
     CApi.message_closure_binary r c b = [call] /\
     (CApi.rtcSendMessage send id (Some (CApi.call_data call))
        (CApi.call_size call) r).2 = [CApi.msg_binary b]).
Proof.
  intros Hs Hb Hnul Hch Hptr.
  pose proof (string_size_nonneg s) as Hs0.
  pose proof (binary_size_nonneg b) as Hb0.
  unfold CApi.message_closure_string, CApi.message_closure_binary.
  rewrite Hptr. split; eexists; (split; [reflexivity|]);
    unfold CApi.rtcSendMessage; rewrite Hch; cbn [CApi.call_data CApi.call_size].
  - rewrite (to_int_small (CApi.string_size s + 1)) by lia.
    rewrite to_int_small by lia.
    destruct (Z.leb_spec 0 (- (CApi.string_size s + 1))); [lia|].
    cbn [default from_option]. unfold Datatypes.id.
    rewrite c_str_terminated by assumption.
    rewrite String.string_of_list_byte_of_string.
    now destruct (send _).
  - rewrite to_int_small by lia.
    destruct (Z.leb_spec 0 (CApi.binary_size b)); [|lia].
    cbn [default from_option]. unfold Datatypes.id, CApi.binary_size.
    rewrite Nat2Z.id, firstn_all.
    now destruct (send _).
Qed.

(** X20: the reliability settings through the C structs.  Filling a
    [Reliability] from an [rtcReliability] and reading it back never
    throws and gives the settings in normal form: the flags as they were,
    the packet life time kept only when the channel is unreliable and the
    life time positive, the retransmit count kept only when the channel is
    unreliable and the life time not positive; the normal form fills the
    same [Reliability].  So a timed reliability of zero milliseconds, read
    into the C struct and filled back, has become a retransmit
    reliability. *)
Theorem reliability_through_c_structs (c : CApi.rtcReliability) :
  - 2 ^ 31 <= CApi.c_maxPacketLifeTime c < 2 ^ 31 ->
  let normal :=
    {| CApi.c_unordered := CApi.c_unordered c;
       CApi.c_unreliable := CApi.c_unreliable c;
       CApi.c_maxPacketLifeTime :=
         if CApi.c_unreliable c && (0 <? CApi.c_maxPacketLifeTime c)
         then CApi.c_maxPacketLifeTime c else 0;
       CApi.c_maxRetransmits :=
         if CApi.c_unreliable c && negb (0 <? CApi.c_maxPacketLifeTime c)
         then CApi.c_maxRetransmits c else 0 |} in
  CApi.of_Reliability (CApi.to_Reliability c) = inr normal /\
  CApi.to_Reliability normal = CApi.to_Reliability c /\
  (forall unordered n,
     sum_map id CApi.to_Reliability
       (CApi.of_Reliability
         {| CApi.rel_type := CApi.Rexmit; CApi.rel_unordered := unordered;
            CApi.rel_rexmit := CApi.rexmit_int n |}) =
     inr {| CApi.rel_type := CApi.Rexmit; CApi.rel_unordered := unordered;
            CApi.rel_rexmit := CApi.rexmit_int n |}) /\
  (forall unordered count,
     - 2 ^ 31 <= count < 2 ^ 31 ->
     sum_map id CApi.to_Reliability
       (CApi.of_Reliability
         {| CApi.rel_type := CApi.Timed; CApi.rel_unordered := unordered;
            CApi.rel_rexmit := CApi.rexmit_milliseconds count |}) =
     inr (if 0 <? count
          then {| CApi.rel_type := CApi.Timed;
                  CApi.rel_unordered := unordered;
                  CApi.rel_rexmit := CApi.rexmit_milliseconds count |}
          else {| CApi.rel_type := CApi.Rexmit;
                  CApi.rel_unordered := unordered;
                  CApi.rel_rexmit := CApi.rexmit_int 0 |})).
Proof.
  intros Hrange normal. subst normal. split; [|split; [|split]].
  - unfold CApi.to_Reliability, CApi.of_Reliability.
    destruct (CApi.c_unreliable c); cbn; [|reflexivity].
    destruct (0 <? CApi.c_maxPacketLifeTime c); cbn; [|reflexivity].
    now rewrite to_int_small.
  - unfold CApi.to_Reliability. cbn.
    destruct (CApi.c_unreliable c); cbn; [|reflexivity].
    destruct (0 <? CApi.c_maxPacketLifeTime c) eqn:E; cbn; [now rewrite E|].
    reflexivity.
  - reflexivity.
  - intros unordered count Hc. cbn. unfold CApi.to_Reliability. cbn.
    rewrite to_int_small by assumption. now destruct (0 <? count).
Qed.

(** X21: [rtcGetSelectedCandidatePair] copies the local candidate first.
    When both buffers are large enough it returns the larger of the two
    sizes needed.  When the local buffer is too small it returns
    [RTC_ERR_TOO_SMALL] and writes nothing.  When only the remote buffer is
    too small it returns [RTC_ERR_TOO_SMALL] as well, but the local
    candidate has been written to the local buffer by then. *)
Theorem selected_pair_copies_local_first
  (selected : CApi.PeerConnection -> option (string * string))
  (pc : Z) (r : CApi.Registry) (p : CApi.PeerConnection)
  (l rm : string) (lmem rmem : list Byte.byte) (lsize rsize : Z) :
  CApi.peerConnectionMap r !! pc = Some p ->
  selected p = Some (l, rm) ->
  CApi.string_size l + 1 < 2 ^ 31 ->
  CApi.string_size rm + 1 < 2 ^ 31 ->
  let out :=
    CApi.rtcGetSelectedCandidatePair selected pc (Some lmem) lsize
      (Some rmem) rsize r in
  let written := CApi.overwrite (String.list_byte_of_string l ++ [Byte.x00]) lmem in
  (CApi.string_size l + 1 <= lsize -> CApi.string_size rm + 1 <= rsize ->
   out.1.1 = Z.max (CApi.string_size l + 1) (CApi.string_size rm + 1) /\
   out.1.2 = Some written) /\
  (lsize < CApi.string_size l + 1 ->
   out = (CApi.RTC_ERR_TOO_SMALL, Some lmem, Some rmem)) /\
  (CApi.string_size l + 1 <= lsize -> rsize < CApi.string_size rm + 1 ->
   out = (CApi.RTC_ERR_TOO_SMALL, Some written, Some rmem)).
Proof.
  intros Hp Hsel Hl Hr.
  pose proof (string_size_nonneg l). pose proof (string_size_nonneg rm).
  unfold CApi.rtcGetSelectedCandidatePair, CApi.getPeerConnection,
    CApi.copyAndReturn_string.
  rewrite Hp, Hsel, !to_int_small by lia. cbn zeta.
  destruct (Z.ltb_spec lsize (CApi.string_size l + 1));
    destruct (Z.ltb_spec rsize (CApi.string_size rm + 1)); cbn;
    repeat split; intros; try lia; try reflexivity;
    destruct (Z.ltb_spec (CApi.string_size l + 1) 0); try lia; cbn;
    try reflexivity;
    destruct (Z.ltb_spec (CApi.string_size rm + 1) 0); try lia; reflexivity.
Qed.

(** X22: [rtcReceiveMessage] takes a message off the channel exactly when
    it has copied it.  With a buffer that is large enough the call
    succeeds, [*size] is the number of bytes of a binary message, and the
    channel is left with the messages after the first; with a buffer that
    is too small the call returns [RTC_ERR_TOO_SMALL] and the registry and
    the buffer stay as they were; with no message waiting it returns
    [RTC_ERR_NOT_AVAIL]. *)
Theorem receive_consumes_what_it_copies (moved : string -> string)
  (r : CApi.Registry) (id : Z) (ch : CApi.Channel) (mem : list Byte.byte)
  (size : Z) :
  CApi.getChannel r id = inr ch ->
  0 <= size < 2 ^ 31 ->
  let out := CApi.rtcReceiveMessage moved id (Some mem) (Some size) r in
  (CApi.peek ch = None ->
   out = (CApi.RTC_ERR_NOT_AVAIL, Some mem, Some size, r)) /\
  (forall b, CApi.peek ch = Some (CApi.msg_binary b) ->
     CApi.binary_size b < 2 ^ 31 ->
     (CApi.binary_size b <= size ->
      out.1 = (CApi.RTC_ERR_SUCCESS, Some (CApi.overwrite b mem),
               Some (CApi.binary_size b)) /\
      CApi.getChannel out.2 id = inr (CApi.receive ch)) /\
     (size < CApi.binary_size b ->
      out.1.1 = (CApi.RTC_ERR_TOO_SMALL, Some mem) /\ out.2 = r)) /\
  (forall s, CApi.peek ch = Some (CApi.msg_string s) ->
     CApi.string_size s + 1 < 2 ^ 31 ->
     (CApi.string_size s + 1 <= size ->
      out.1 = (CApi.RTC_ERR_SUCCESS,
               Some (CApi.overwrite
                       (String.list_byte_of_string s ++ [Byte.x00]) mem),
               Some (- (CApi.string_size s + 1))) /\
      CApi.getChannel out.2 id = inr (CApi.receive ch)) /\
     (size < CApi.string_size s + 1 ->
      out.1.1 = (CApi.RTC_ERR_TOO_SMALL, Some mem) /\ out.2 = r)).
Proof.
  intros Hch Hsize out. subst out. unfold CApi.rtcReceiveMessage.
  rewrite Hch, Z.abs_eq, to_int_small by lia.
  split; [intros ->; reflexivity|]. split.
  - intros b -> Hb. pose proof (binary_size_nonneg b).
    unfold CApi.copyAndReturn_binary. rewrite to_int_small by lia.
    destruct (Z.ltb_spec size (CApi.binary_size b)); cbn; split; intros;
      try lia; auto.
    destruct (Z.leb_spec 0 (CApi.binary_size b)); [|lia]. cbn.
    split; [reflexivity|]. now apply getChannel_update_channel.
  - intros s -> Hs. pose proof (string_size_nonneg s).
    unfold CApi.copyAndReturn_string. rewrite to_int_small by lia.
    destruct (Z.ltb_spec size (CApi.string_size s + 1)); cbn; split; intros;
      try lia; auto.
    destruct (Z.leb_spec 0 (CApi.string_size s + 1)); [|lia]. cbn.
    rewrite to_int_small by lia.
    split; [reflexivity|]. now apply getChannel_update_channel.
Qed.

(** X23: when the buffer is too small for a binary message,
    [rtcReceiveMessage] sets [*size] from the vector it has just moved
    into [copyAndReturn], which is empty by then: the caller is told
    [RTC_ERR_TOO_SMALL] with [*size == 0], not the size to come back
    with; a call with a null buffer does report that size. *)
Theorem too_small_binary_reports_size_zero (moved : string -> string)
  (r : CApi.Registry) (id : Z) (ch : CApi.Channel) (b : CApi.binary)
  (mem : list Byte.byte) (size : Z) :
  CApi.getChannel r id = inr ch ->
  CApi.peek ch = Some (CApi.msg_binary b) ->
  CApi.binary_size b < 2 ^ 31 ->
  0 <= size < CApi.binary_size b ->
  CApi.rtcReceiveMessage moved id (Some mem) (Some size) r =
    (CApi.RTC_ERR_TOO_SMALL, Some mem, Some 0, r) /\
  CApi.rtcReceiveMessage moved id None (Some size) r =
    (CApi.RTC_ERR_SUCCESS, None, Some (CApi.binary_size b), r).
Proof.
  intros Hch Hpeek Hb Hsize. unfold CApi.rtcReceiveMessage.
  rewrite Hch, Hpeek, Z.abs_eq, (to_int_small size) by lia.
  unfold CApi.copyAndReturn_binary. rewrite to_int_small by lia.
  destruct (Z.ltb_spec size (CApi.binary_size b)); [|lia]. cbn.
  split; [reflexivity|].
  destruct (Z.leb_spec 0 (CApi.binary_size b)); [reflexivity|lia].
Qed.

(** * Instances *)

(** X1 at a queue of numbers whose amount is the number itself. *)
Lemma amount_is_sum_without_exchange_witness :
  let ops := [Queue.Push 5; Queue.Push 7; Queue.Pop] in
  forallb (fun o => negb (Queue.is_exchange o)) ops = true /\
  exists rs q,
    Queue.run (Queue.Queue 0 (Some (fun x : Z => x))) ops = Some (rs, q) /\
    Queue.amount q = 7.
Proof.
  intros ops. split; [reflexivity|]. do 2 eexists.
  assert (Hrun : Queue.run (Queue.Queue 0 (Some (fun x : Z => x))) ops =
                 Some ([None; None; Some 5],
                       {| Queue.mLimit := 0; Queue.mAmount := 7;
                          Queue.mQueue := [7];
                          Queue.mAmountFunction := fun x => x;
                          Queue.mStopping := false |})) by reflexivity.
  split; [exact Hrun|].
  exact (amount_is_sum_without_exchange 0 (Some (fun x : Z => x)) ops _ _
           eq_refl Hrun).
Defined.

(** X2 at the queue reached by one push. *)
Lemma default_amount_equals_size_witness :
  let q := Queue.pushImpl (Queue.Queue 0 (@None (Z -> Z))) 3 in
  Queue.reachable 0 None q /\
  Queue.size q < Int.size_t_modulus /\
  Queue.amount q = Queue.size q.
Proof.
  intros q.
  assert (Hreach : Queue.reachable 0 None q).
  { apply (Queue.reachable_step 0 None (Queue.Queue 0 None) (Queue.Push 3) None);
      [apply Queue.reachable_init|reflexivity]. }
  assert (Hsz : Queue.size q < Int.size_t_modulus) by reflexivity.
  split; [exact Hreach|]. split; [exact Hsz|].
  exact (default_amount_equals_size 0 q Hreach Hsz).
Defined.


(** X4 at three pushes on a fresh queue without limit. *)
Lemma push_then_pop_is_fifo_witness :
  let q := Queue.Queue 0 (@None (Z -> Z)) in
  Queue.mStopping q = false /\
  (Queue.mLimit q = 0 \/
   Queue.size q + Z.of_nat (length [1; 2; 3]) <= Queue.mLimit q) /\
  exists q',
    Queue.run q
      [Queue.Push 1; Queue.Push 2; Queue.Push 3;
       Queue.Pop; Queue.Pop; Queue.Pop] =
    Some ([None; None; None; Some 1; Some 2; Some 3], q') /\
    Queue.mQueue q' = [].
Proof.
  intros q. split; [reflexivity|]. split; [left; reflexivity|].
  exact (push_then_pop_is_fifo [1; 2; 3] q eq_refl (or_introl eq_refl)).
Defined.

(** X10 at a connecting WebSocket that has its TCP transport only. *)
Lemma close_before_ws_transport_witness :
  (WebSocket.state (WebSocket.core _ socket0) = WebSocket.Connecting \/
   WebSocket.state (WebSocket.core _ socket0) = WebSocket.Open) /\
  WebSocket.mWsTransport (WebSocket.core _ socket0) = false /\
  WebSocket.mTcpTransport _ (WebSocket.close _ socket0).1 = true /\
  (WebSocket.remoteClose _ (WebSocket.close _ socket0).1).2 = [].
Proof.
  split; [left; reflexivity|]. split; [reflexivity|].
  destruct (close_before_ws_transport _ socket0 (or_introl eq_refl) eq_refl)
    as (_ & Htcp & _ & Hrc).
  split; [exact Htcp|]. now rewrite Hrc.
Defined.

(** X11 at a queue that holds a control, a string and a control message. *)
Lemma receive_and_peek_skip_control_witness :
  let cs := [(WebSocket.Control, 0)] in
  let rest := [(WebSocket.String, 1); (WebSocket.Control, 2)] in
  Queue.mQueue (WebSocket.mRecvQueue _ socket0) = cs ++ rest /\
  Forall (fun m => WebSocket.is_control _ fst m = true) cs /\
  WebSocket.is_control _ fst (WebSocket.String, 1) = false /\
  (WebSocket.receive _ fst socket0).1 = Some (WebSocket.String, 1) /\
  Queue.mQueue (WebSocket.mRecvQueue _ (WebSocket.receive _ fst socket0).2) =
    [(WebSocket.Control, 2)].
Proof.
  intros cs rest.
  assert (Hcs : Forall (fun m => WebSocket.is_control _ fst m = true) cs)
    by (repeat constructor).
  split; [reflexivity|]. split; [exact Hcs|]. split; [reflexivity|].
  destruct (receive_and_peek_skip_control _ fst socket0 cs rest
              eq_refl Hcs eq_refl) as (H1 & H2 & _).
  split; [exact H1|exact H2].
Defined.



(** X14 at a VP8 track added to the peer connection [1]. *)
Lemma added_track_inherits_user_pointer_witness :
  let init := {| CApi.init_direction := 1;
                 CApi.init_codec := CApi.RTC_CODEC_VP8;
                 CApi.init_payloadType := 96;
                 CApi.init_ssrc := 42;
                 CApi.init_mid := None;
                 CApi.init_name := None;
                 CApi.init_msid := None;
                 CApi.init_trackId := None |} in
  is_Some (CApi.peerConnectionMap registry0 !! 1) /\
  (forall v, CApi.init_codec init <> CApi.RTC_CODEC_other v) /\
  CApi.getUserPointer registry0 1 = Some 0 /\
  (CApi.rtcAddTrackEx 1 (Some init) registry0).1 = 3.
Proof.
  intros init.
  assert (Hcodec : forall v, CApi.init_codec init <> CApi.RTC_CODEC_other v)
    by (intros v; discriminate).
  split; [eexists; reflexivity|]. split; [exact Hcodec|].
  split; [reflexivity|].
  exact (proj1 (added_track_inherits_user_pointer 1 init registry0 _ 0
                  eq_refl Hcodec eq_refl)).
Defined.

(** X15 at the data channel [2]. *)
Lemma delete_data_channel_witness :
  is_Some (CApi.dataChannelMap registry0 !! 2) /\
  (CApi.rtcDeleteDataChannel 2 registry0).1 = CApi.RTC_ERR_SUCCESS /\
  (CApi.rtcDeleteDataChannel 2 (CApi.rtcDeleteDataChannel 2 registry0).2).1 =
    CApi.RTC_ERR_INVALID.
Proof.
  split; [eexists; reflexivity|].
  destruct (delete_data_channel 2 registry0 _ eq_refl)
    as (Hret & _ & _ & _ & _ & _ & _ & Hagain & _).
  split; [exact Hret|]. now rewrite Hagain.
Defined.

(** X16 at the data channel [2]. *)
Lemma erased_handle_silences_callbacks_witness :
  let r' := match CApi.eraseDataChannel 2 registry0 with
            | inr r' => r'
            | inl _ => registry0
            end in
  (CApi.eraseDataChannel 2 registry0 = inr r' \/
   CApi.eraseWebSocket 2 registry0 = inr r') /\
  CApi.message_closure_string r'
    {| CApi.captured_id := 2; CApi.captured_cb := CApi.fn 300 |} "hello" = [].
Proof.
  intros r'.
  assert (He : CApi.eraseDataChannel 2 registry0 = inr r' \/
               CApi.eraseWebSocket 2 registry0 = inr r')
    by (left; reflexivity).
  split; [exact He|].
  exact (proj1 (erased_handle_silences_callbacks 2 (CApi.fn 300) registry0 r'
                  "hello" [] He)).
Defined.

(** X17 at the handle [99], which no object has. *)
Lemma unknown_handle_is_invalid_witness :
  CApi.peerConnectionMap registry0 !! 99 = None /\
  CApi.dataChannelMap registry0 !! 99 = None /\
  CApi.trackMap registry0 !! 99 = None /\
  CApi.webSocketMap registry0 !! 99 = None /\
  CApi.rtcDeleteDataChannel 99 registry0 = (CApi.RTC_ERR_INVALID, registry0).
Proof.
  repeat (split; [reflexivity|]).
  exact (proj2 (proj2 (proj2 (proj2 (proj2 (proj2
    (unknown_handle_is_invalid 99 registry0 eq_refl eq_refl eq_refl
       eq_refl))))))).
Defined.

(** X18 at the string [abc] and a buffer of six bytes. *)
Lemma copied_string_reads_back_witness :
  let mem := [Byte.xff; Byte.xff; Byte.xff; Byte.xff; Byte.xff; Byte.xff] in
  CApi.string_size "abc" + 1 < 2 ^ 31 /\
  CApi.string_size "abc" + 1 <= 6 /\
  6 <= Z.of_nat (length mem) /\
  (CApi.copyAndReturn_string "abc" (Some mem) 6).1 = 4.
Proof.
  intros mem.
  assert (H1 : CApi.string_size "abc" + 1 < 2 ^ 31) by reflexivity.
  assert (H2 : CApi.string_size "abc" + 1 <= 6) by (vm_compute; discriminate).
  assert (H3 : 6 <= Z.of_nat (length mem)) by (vm_compute; discriminate).
  split; [exact H1|]. split; [exact H2|]. split; [exact H3|].
  exact (proj1 (copied_string_reads_back "abc" mem 6 H1 H2 H3)).
Defined.

(** X19 at the message [hello] on the data channel [2]. *)
Lemma callback_arguments_echo_witness :
  let c := {| CApi.captured_id := 2; CApi.captured_cb := CApi.fn 300 |} in
  CApi.string_size "hello" + 1 < 2 ^ 31 /\
  CApi.binary_size [Byte.x01; Byte.x00] < 2 ^ 31 /\
  (Byte.x00 ∉ String.list_byte_of_string "hello") /\
  is_Some (CApi.getUserPointer registry0 (CApi.captured_id c)) /\
  exists call,
    CApi.message_closure_string registry0 c "hello" = [call] /\
    (CApi.rtcSendMessage (fun _ => inr true) 2 (Some (CApi.call_data call))
       (CApi.call_size call) registry0).2 = [CApi.msg_string "hello"].
Proof.
  intros c.
  assert (H1 : CApi.string_size "hello" + 1 < 2 ^ 31) by reflexivity.
  assert (H2 : CApi.binary_size [Byte.x01; Byte.x00] < 2 ^ 31) by reflexivity.
  assert (H3 : Byte.x00 ∉ String.list_byte_of_string "hello").
  { cbn. rewrite !not_elem_of_cons. repeat split; try discriminate.
    apply not_elem_of_nil. }
  split; [exact H1|]. split; [exact H2|]. split; [exact H3|].
  split; [eexists; reflexivity|].
  exact (proj1 (callback_arguments_echo (fun _ => inr true) registry0 2 _ c
                  4096 "hello" [Byte.x01; Byte.x00] H1 H2 H3 eq_refl eq_refl)).
Defined.

(** X20 at an unreliable channel with no life time and three
    retransmits. *)
Lemma reliability_through_c_structs_witness :
  let c := {| CApi.c_unordered := true; CApi.c_unreliable := true;
              CApi.c_maxPacketLifeTime := 0; CApi.c_maxRetransmits := 3 |} in
  (- 2 ^ 31 <= CApi.c_maxPacketLifeTime c < 2 ^ 31) /\
  CApi.of_Reliability (CApi.to_Reliability c) = inr c.
Proof.
  intros c.
  assert (H : - 2 ^ 31 <= CApi.c_maxPacketLifeTime c < 2 ^ 31)
    by (cbn; lia).
  split; [exact H|].
  exact (proj1 (reliability_through_c_structs c H)).
Defined.

(** X21 at two short candidates and a remote buffer that is too small. *)
Lemma selected_pair_copies_local_first_witness :
  let selected := fun _ : CApi.PeerConnection => Some ("ab", "cd") in
  is_Some (CApi.peerConnectionMap registry0 !! 1) /\
  CApi.string_size "ab" + 1 < 2 ^ 31 /\
  CApi.string_size "cd" + 1 < 2 ^ 31 /\
  CApi.rtcGetSelectedCandidatePair selected 1
    (Some [Byte.xff; Byte.xff; Byte.xff]) 3 (Some [Byte.xff]) 1 registry0 =
  (CApi.RTC_ERR_TOO_SMALL, Some [Byte.x61; Byte.x62; Byte.x00],
   Some [Byte.xff]).
Proof.
  intros selected.
  assert (H1 : CApi.string_size "ab" + 1 < 2 ^ 31) by reflexivity.
  assert (H2 : CApi.string_size "cd" + 1 < 2 ^ 31) by reflexivity.
  split; [eexists; reflexivity|]. split; [exact H1|]. split; [exact H2|].
  assert (H3 : CApi.string_size "ab" + 1 <= 3)
    by (unfold CApi.string_size; cbn; lia).
  assert (H4 : 1 < CApi.string_size "cd" + 1)
    by (unfold CApi.string_size; cbn; lia).
  exact (proj2 (proj2 (selected_pair_copies_local_first selected 1 registry0
                         _ "ab" "cd" [Byte.xff; Byte.xff; Byte.xff]
                         [Byte.xff] 3 1 eq_refl eq_refl H1 H2)) H3 H4).
Defined.

(** X22 at the message [hello] on the data channel [2] and a buffer of
    eight bytes. *)
Lemma receive_consumes_what_it_copies_witness :
  let mem := [Byte.xff; Byte.xff; Byte.xff; Byte.xff;
              Byte.xff; Byte.xff; Byte.xff; Byte.xff] in
  let out := CApi.rtcReceiveMessage (fun _ => EmptyString) 2 (Some mem)
               (Some 8) registry0 in
  is_Some (CApi.dataChannelMap registry0 !! 2) /\
  (0 <= 8 < 2 ^ 31) /\
  out.1.2 = Some (-6) /\
  CApi.getChannel out.2 2 =
    inr {| CApi.pending := []; CApi.messageCallback := None |}.
Proof.
  intros mem out.
  assert (H : 0 <= 8 < 2 ^ 31) by lia.
  split; [eexists; reflexivity|]. split; [exact H|].
  destruct (receive_consumes_what_it_copies (fun _ => EmptyString) registry0 2
              _ mem 8 eq_refl H) as (_ & _ & Hstr).
  destruct (Hstr "hello" eq_refl eq_refl) as [Hfit _].
  destruct (Hfit ltac:(unfold CApi.string_size; cbn; lia)) as [Hout Hch].
  split; [|exact Hch]. subst out. now rewrite Hout.
Defined.

(** X23 at the three bytes waiting on the data channel [1] of the second
    sample registry, and a buffer of two bytes. *)
Lemma too_small_binary_reports_size_zero_witness :
  is_Some (CApi.dataChannelMap registry1 !! 1) /\
  CApi.binary_size [Byte.x01; Byte.x02; Byte.x03] < 2 ^ 31 /\
  (0 <= 2 < CApi.binary_size [Byte.x01; Byte.x02; Byte.x03]) /\
  CApi.rtcReceiveMessage (fun _ => EmptyString) 1
    (Some [Byte.xff; Byte.xff]) (Some 2) registry1 =
  (CApi.RTC_ERR_TOO_SMALL, Some [Byte.xff; Byte.xff], Some 0, registry1).
Proof.
  assert (H1 : CApi.binary_size [Byte.x01; Byte.x02; Byte.x03] < 2 ^ 31)
    by reflexivity.
  assert (H2 : 0 <= 2 < CApi.binary_size [Byte.x01; Byte.x02; Byte.x03])
    by (unfold CApi.binary_size; cbn; lia).
  split; [eexists; reflexivity|]. split; [exact H1|]. split; [exact H2|].
  exact (proj1 (too_small_binary_reports_size_zero (fun _ => EmptyString)
                  registry1 1 _ [Byte.x01; Byte.x02; Byte.x03]
                  [Byte.xff; Byte.xff] 2 eq_refl eq_refl H1 H2)).
Defined.
